(** * A resizable buffer built from fixed-size blocks

    Shallow embedding of [resizablebuffer.c] / [resizablebuffer.h] and the
    properties of its resize and scatter/gather copy routines.

    Integers of the C code are [Z] values in the range of [uint32_t]; every
    arithmetic operation that can leave that range is written with its
    wrap-around.  Operations whose C behaviour is undefined (a division by a
    zero block size, a [memcpy] outside an object) yield [None]. *)

From Stdlib Require Import ZArith List Lia Bool.
From Stdlib.Strings Require Import Byte.
Import ListNotations.
Local Open Scope Z_scope.

(** ** Machine integers ([rbuf_u32], [bque_s32]) *)

Module U32.

Definition modulus : Z := 2 ^ 32.
Definition range (z : Z) : Prop := 0 <= z < modulus.
Definition wrap (z : Z) : Z := z mod modulus.
Definition add (a b : Z) : Z := wrap (a + b).
Definition sub (a b : Z) : Z := wrap (a - b).
Definition mul (a b : Z) : Z := wrap (a * b).

(** the conversion [(bque_s32)i] of an unsigned 32-bit value *)
Definition to_s32 (z : Z) : Z := if z <? 2 ^ 31 then z else z - modulus.

End U32.

(** ** Undefined behaviour as [None] *)

Notation "x <- c ;; k" := (match c with Some x => k | None => None end)
  (at level 61, c at next level, right associativity).
Notation "' pat <- c ;; k" := (match c with Some pat => k | None => None end)
  (at level 61, pat pattern, c at next level, right associativity).

(** ** Memory objects and [memcpy] *)

Definition len {A} (l : list A) : Z := Z.of_nat (length l).

Definition in_object (off n size : Z) : bool :=
  (0 <=? off) && (0 <=? n) && (off + n <=? size).

(** the [n] elements of [l] from position [p] on *)
Definition slice {A} (l : list A) (p n : Z) : list A :=
  firstn (Z.to_nat n) (skipn (Z.to_nat p) l).

(** [l] with the elements from position [p] on replaced by [d] *)
Definition splice {A} (l : list A) (p : Z) (d : list A) : list A :=
  firstn (Z.to_nat p) l ++ d ++ skipn (Z.to_nat (p + len d)) l.

(** a read of [n] bytes at [off] in the object [m] *)
Definition mem_read (m : list byte) (off n : Z) : option (list byte) :=
  if in_object off n (len m) then Some (slice m off n) else None.

(** a write of the bytes [d] at [off] in the object [m] *)
Definition mem_write (m : list byte) (off : Z) (d : list byte) : option (list byte) :=
  if in_object off (len d) (len m) then Some (splice m off d) else None.

(** [memcpy(dst + doff, src + soff, n)] *)
Definition memcpy (dst : list byte) (doff : Z) (src : list byte) (soff n : Z)
  : option (list byte) :=
  d <- mem_read src soff n ;;
  mem_write dst doff d.

Definition list_set {A} (l : list A) (i : nat) (x : A) : list A :=
  firstn i l ++ x :: skipn (S i) l.

(** ** The block store ([bufferqueue.h])

    The buffer queue is a separate module; the controller only calls
    [bque_new], [bque_del], [bque_enqueue], [bque_forfeit] and [bque_item]. *)

Inductive bque_res : Type := BQUE_OK | BQUE_ERR | BQUE_ERR_NO_MEM.

(** Modelled from the spec: the state of the block store, whose source
    ([bufferqueue.c]) is not part of this repository's files.  The store "owns
    an ordered sequence of fixed-size memory blocks" ([bque_nodes], index 0
    first, tail last).  [bque_fate] lists the results of the coming
    [bque_enqueue] calls, first call first, and stands for the allocator the
    store draws from; once the list is used up every call succeeds. *)
Record bque_ctx : Type := {
  bque_nodes : list (list byte);
  bque_fate : list bque_res
}.

(** the view of one block that [bque_item] hands out *)
Record bque_buff : Type := {
  ptr : nat;    (* the block the pointer points into *)
  bsize : Z
}.

(** Modelled from the spec: "create(max_block_count_hint, max_block_size_hint)
    -> StoreHandle | OutOfMemory | Generic -- hints of 0 mean no store-level
    limit".  [rbuf_new] passes 0 for both hints, so no limit is modelled;
    [outcome] is what the call returns. *)
Definition bque_new (outcome : bque_res) (fate : list bque_res)
  : bque_res * option bque_ctx :=
  match outcome with
  | BQUE_OK => (BQUE_OK, Some {| bque_nodes := []; bque_fate := fate |})
  | e => (e, None)
  end.

(** Modelled from the spec: "append_block(store, initial_contents:
    Optional<bytes>, size: u32) -> Ok | OutOfMemory | Generic -- appends one
    block of exactly size bytes at the tail".  Without initial contents the
    block is taken as zero-filled. *)
Definition bque_enqueue (q : bque_ctx) (buff : option (list byte)) (size : Z)
  : bque_res * bque_ctx :=
  let fresh :=
    match buff with
    | Some d => firstn (Z.to_nat size) d
    | None => repeat x00 (Z.to_nat size)
    end in
  match bque_fate q with
  | [] => (BQUE_OK, {| bque_nodes := bque_nodes q ++ [fresh]; bque_fate := [] |})
  | BQUE_OK :: fate =>
      (BQUE_OK, {| bque_nodes := bque_nodes q ++ [fresh]; bque_fate := fate |})
  | e :: fate => (e, {| bque_nodes := bque_nodes q; bque_fate := fate |})
  end.

(** Modelled from the spec: "release_tail_block(store) -> Ok | Generic --
    removes and frees the block currently at the tail; fails if the store is
    empty". *)
Definition bque_forfeit (q : bque_ctx) : bque_res * bque_ctx :=
  match bque_nodes q with
  | [] => (BQUE_ERR, q)
  | _ => (BQUE_OK, {| bque_nodes := removelast (bque_nodes q);
                      bque_fate := bque_fate q |})
  end.

(** Modelled from the spec: "get_block(store, index) -> (pointer, length) |
    Generic -- returns a mutable view of the block at index; index must be
    < block_count, else Generic".  The index is the signed 32-bit value the
    call sites convert to; [None] is the Generic failure. *)
Definition bque_item (q : bque_ctx) (idx : Z) : option bque_buff :=
  if (0 <=? idx) && (idx <? len (bque_nodes q))
  then Some {| ptr := Z.to_nat idx;
               bsize := len (nth (Z.to_nat idx) (bque_nodes q) []) |}
  else None.

(** [memcpy(b.ptr + block_offs, src + src_offs, n)]: a store into a block *)
Definition block_store (q : bque_ctx) (b : bque_buff) (block_offs : Z)
    (src : list byte) (src_offs n : Z) : option bque_ctx :=
  node <- nth_error (bque_nodes q) (ptr b) ;;
  node' <- memcpy node block_offs src src_offs n ;;
  Some {| bque_nodes := list_set (bque_nodes q) (ptr b) node';
          bque_fate := bque_fate q |}.

(** [memcpy(dst + dst_offs, b.ptr + block_offs, n)]: a load from a block *)
Definition block_load (q : bque_ctx) (b : bque_buff) (block_offs : Z)
    (dst : list byte) (dst_offs n : Z) : option (list byte) :=
  node <- nth_error (bque_nodes q) (ptr b) ;;
  memcpy dst dst_offs node block_offs n.

(** the bytes of all blocks in logical order: block [i] covers the positions
    from [i * block_size] on *)
Definition flat (q : bque_ctx) : list byte := concat (bque_nodes q).

(** every block of the store has [bs] bytes *)
Definition uniform (bs : Z) (q : bque_ctx) : Prop :=
  Forall (fun b => len b = bs) (bque_nodes q).

(** ** The buffer controller ([resizablebuffer.h], [resizablebuffer.c]) *)

Inductive rbuf_res : Type :=
| RBUF_OK | RBUF_ERR | RBUF_ERR_NO_MEM | RBUF_ERR_BAD_OFFS | RBUF_ERR_BAD_SIZE.

(** the values of [enum _rbuf_res] *)
Definition rbuf_res_code (r : rbuf_res) : Z :=
  match r with
  | RBUF_OK => 0
  | RBUF_ERR => -1
  | RBUF_ERR_NO_MEM => -2
  | RBUF_ERR_BAD_OFFS => -3
  | RBUF_ERR_BAD_SIZE => -4
  end.

Definition RBUF_DEF_BLOCK_SIZE : Z := 512.
Definition RBUF_DEF_SIZE_MAX : Z := 1024.

Record rbuf_conf : Type := { block_size : Z; size_max : Z }.

Record rbuf_stat : Type := { stat_block_num : Z; stat_buff_size : Z }.

Record rbuf_cache : Type := {
  block_num : Z;
  buff_cap : Z;
  buff_size : Z;
  last_block_buff_size : Z
}.

Record rbuf_ctx : Type := {
  bque : bque_ctx;
  conf : rbuf_conf;
  cache : rbuf_cache
}.

Definition set_bque (ctx : rbuf_ctx) (q : bque_ctx) : rbuf_ctx :=
  {| bque := q; conf := conf ctx; cache := cache ctx |}.

Definition set_cache (ctx : rbuf_ctx) (c : rbuf_cache) : rbuf_ctx :=
  {| bque := bque ctx; conf := conf ctx; cache := c |}.

(** what the environment decides in [rbuf_new] *)
Record alloc_env : Type := {
  store_outcome : bque_res;        (* result of [bque_new] *)
  ctx_allocated : bool;            (* [malloc(sizeof(rbuf_ctx))] is not NULL *)
  enqueue_fate : list bque_res     (* results of the later block allocations *)
}.

(** [rbuf_new]: the context comes out of [memset(.., 0, ..)] with the block
    store and the configuration filled in. *)
Definition rbuf_new (env : alloc_env) (c : option rbuf_conf)
  : rbuf_res * option rbuf_ctx :=
  match bque_new (store_outcome env) (enqueue_fate env) with
  | (BQUE_OK, Some mod_bque_ctx) =>
      if ctx_allocated env then
        (RBUF_OK,
         Some {| bque := mod_bque_ctx;
                 conf := match c with
                         | Some c => {| block_size := block_size c;
                                        size_max := size_max c |}
                         | None => {| block_size := RBUF_DEF_BLOCK_SIZE;
                                      size_max := RBUF_DEF_SIZE_MAX |}
                         end;
                 cache := {| block_num := 0; buff_cap := 0; buff_size := 0;
                             last_block_buff_size := 0 |} |})
      else (RBUF_ERR_NO_MEM, None)
  | (BQUE_ERR_NO_MEM, _) => (RBUF_ERR_NO_MEM, None)
  | _ => (RBUF_ERR, None)
  end.

(** [rbuf_status] *)
Definition rbuf_status (ctx : rbuf_ctx) : rbuf_res * rbuf_stat :=
  (RBUF_OK, {| stat_block_num := block_num (cache ctx);
               stat_buff_size := buff_size (cache ctx) |}).

(** the growth loop of [rbuf_resize]: [n] calls of [bque_enqueue], left at
    the first one that fails *)
Fixpoint resize_grow_loop (n : nat) (q : bque_ctx) (bs : Z) : bque_res * bque_ctx :=
  match n with
  | O => (BQUE_OK, q)
  | S n' =>
      match bque_enqueue q None bs with
      | (BQUE_OK, q') => resize_grow_loop n' q' bs
      | failed => failed
      end
  end.

(** the shrink loop of [rbuf_resize] *)
Fixpoint resize_shrink_loop (n : nat) (q : bque_ctx) : bque_res * bque_ctx :=
  match n with
  | O => (BQUE_OK, q)
  | S n' =>
      match bque_forfeit q with
      | (BQUE_OK, q') => resize_shrink_loop n' q'
      | failed => failed
      end
  end.

(** [rbuf_resize] *)
Definition rbuf_resize (ctx : rbuf_ctx) (size : Z) : option (rbuf_res * rbuf_ctx) :=
  let bs := block_size (conf ctx) in
  if size >? size_max (conf ctx) then Some (RBUF_ERR_BAD_SIZE, ctx)
  else if bs =? 0 then None
  else
    let new_block_num_quotient := size / bs in
    let new_block_num_remainder := size mod bs in
    let new_block_num :=
      U32.add new_block_num_quotient
              (if negb (new_block_num_remainder =? 0) then 1 else 0) in
    (* lines 181-192, run on the context the block loops leave *)
    let update_sizes (ctx1 : rbuf_ctx) :=
      Some (RBUF_OK,
            set_cache ctx1
              {| block_num := block_num (cache ctx1);
                 buff_cap := buff_cap (cache ctx1);
                 buff_size := size;
                 last_block_buff_size :=
                   if negb (new_block_num_quotient =? 0)
                      && (new_block_num_remainder =? 0)
                   then bs else new_block_num_remainder |}) in
    let set_blocks (q : bque_ctx) :=
      {| bque := q; conf := conf ctx;
         cache := {| block_num := new_block_num;
                     buff_cap := U32.mul bs new_block_num;
                     buff_size := buff_size (cache ctx);
                     last_block_buff_size := last_block_buff_size (cache ctx) |} |} in
    if new_block_num >? block_num (cache ctx) then
      let block_num_diff := U32.sub new_block_num (block_num (cache ctx)) in
      match resize_grow_loop (Z.to_nat block_num_diff) (bque ctx) bs with
      | (BQUE_OK, q) => update_sizes (set_blocks q)
      | (BQUE_ERR_NO_MEM, q) => Some (RBUF_ERR_NO_MEM, set_bque ctx q)
      | (_, q) => Some (RBUF_ERR, set_bque ctx q)
      end
    else if new_block_num <? block_num (cache ctx) then
      let block_num_diff := U32.sub (block_num (cache ctx)) new_block_num in
      match resize_shrink_loop (Z.to_nat block_num_diff) (bque ctx) with
      | (BQUE_OK, q) => update_sizes (set_blocks q)
      | (_, q) => Some (RBUF_ERR, set_bque ctx q)
      end
    else update_sizes ctx.

(** one [memcpy] of a copy routine: [sc_size] bytes between offset
    [sc_block_offs] of block [sc_block] and offset [sc_buff_offs] of the
    external buffer.  The copy routines return the calls they made, in order. *)
Record subcopy : Type := {
  sc_block : Z;
  sc_block_offs : Z;
  sc_buff_offs : Z;
  sc_size : Z
}.

(** the loop of [rbuf_copy_from] (lines 254-270); [n] is the number of values
    [i] takes from its first one up to [ending_block_idx].  [i] stays below
    the loop bound, a 32-bit value, so [i + 1] does not wrap. *)
Fixpoint copy_from_loop (n : nat) (i : Z) (q : bque_ctx) (bs : Z)
    (buff : list byte) (buff_offs rest_size : Z)
  : option (rbuf_res * bque_ctx * list subcopy) :=
  match n with
  | O => Some (RBUF_OK, q, [])
  | S n' =>
      match bque_item q (U32.to_s32 i) with
      | None => Some (RBUF_ERR, q, [])
      | Some mod_bque_buff =>
          let curt_size := if rest_size >? bs then bs else rest_size in
          q1 <- block_store q mod_bque_buff 0 buff buff_offs curt_size ;;
          '(res, q2, log) <- copy_from_loop n' (i + 1) q1 bs buff
                               (U32.add buff_offs curt_size)
                               (U32.sub rest_size curt_size) ;;
          Some (res, q2,
                {| sc_block := i; sc_block_offs := 0;
                   sc_buff_offs := buff_offs; sc_size := curt_size |} :: log)
      end
  end.

(** [rbuf_copy_from] from line 227 on: the copy into the blocks *)
Definition copy_from_blocks (ctx : rbuf_ctx) (buff : list byte)
    (offs size new_size : Z) : option (rbuf_res * rbuf_ctx * list subcopy) :=
  let bs := block_size (conf ctx) in
  if bs =? 0 then None
  else
    let starting_block_idx := offs / bs in
    let ending_block_idx := new_size / bs in
    if starting_block_idx =? ending_block_idx then
      match bque_item (bque ctx) (U32.to_s32 starting_block_idx) with
      | None => Some (RBUF_ERR, ctx, [])
      | Some mod_bque_buff =>
          let block_offs := offs mod bs in
          q <- block_store (bque ctx) mod_bque_buff block_offs buff 0 size ;;
          Some (RBUF_OK, set_bque ctx q,
                [ {| sc_block := starting_block_idx; sc_block_offs := block_offs;
                     sc_buff_offs := 0; sc_size := size |} ])
      end
    else
      match bque_item (bque ctx) (U32.to_s32 starting_block_idx) with
      | None => Some (RBUF_ERR, ctx, [])
      | Some mod_bque_buff =>
          let block_offs := offs mod bs in
          let curt_size := U32.sub bs block_offs in
          q <- block_store (bque ctx) mod_bque_buff block_offs buff 0 curt_size ;;
          let buff_offs := curt_size in
          let rest_size := U32.sub size curt_size in
          let first := U32.add starting_block_idx 1 in
          let bound := U32.add ending_block_idx 1 in
          '(res, q', log) <- copy_from_loop (Z.to_nat (bound - first)) first q bs
                               buff buff_offs rest_size ;;
          Some (res, set_bque ctx q',
                {| sc_block := starting_block_idx; sc_block_offs := block_offs;
                   sc_buff_offs := 0; sc_size := curt_size |} :: log)
      end.

(** [rbuf_copy_from] *)
Definition rbuf_copy_from (ctx : rbuf_ctx) (buff : list byte) (offs size : Z)
  : option (rbuf_res * rbuf_ctx * list subcopy) :=
  let new_size := U32.add offs size in
  if new_size >? buff_cap (cache ctx) then
    '(res, ctx1) <- rbuf_resize ctx new_size ;;
    match res with
    | RBUF_OK => copy_from_blocks ctx1 buff offs size new_size
    | _ => Some (res, ctx1, [])
    end
  else copy_from_blocks ctx buff offs size new_size.

(** [rbuf_append] *)
Definition rbuf_append (ctx : rbuf_ctx) (buff : list byte) (size : Z)
  : option (rbuf_res * rbuf_ctx * list subcopy) :=
  rbuf_copy_from ctx buff (buff_size (cache ctx)) size.

(** the loop of [rbuf_copy_to] (lines 348-364) *)
Fixpoint copy_to_loop (n : nat) (i : Z) (q : bque_ctx) (bs : Z)
    (buff : list byte) (buff_offs rest_size : Z)
  : option (rbuf_res * list byte * list subcopy) :=
  match n with
  | O => Some (RBUF_OK, buff, [])
  | S n' =>
      match bque_item q (U32.to_s32 i) with
      | None => Some (RBUF_ERR, buff, [])
      | Some mod_bque_buff =>
          let curt_size := if rest_size >? bs then bs else rest_size in
          buff1 <- block_load q mod_bque_buff 0 buff buff_offs curt_size ;;
          '(res, buff2, log) <- copy_to_loop n' (i + 1) q bs buff1
                                  (U32.add buff_offs curt_size)
                                  (U32.sub rest_size curt_size) ;;
          Some (res, buff2,
                {| sc_block := i; sc_block_offs := 0;
                   sc_buff_offs := buff_offs; sc_size := curt_size |} :: log)
      end
  end.

(** [rbuf_copy_to]; the result carries the context as the call leaves it and
    the external buffer [buff] as written *)
Definition rbuf_copy_to (ctx : rbuf_ctx) (buff : list byte) (offs size : Z)
  : option (rbuf_res * rbuf_ctx * list byte * list subcopy) :=
  let bs := block_size (conf ctx) in
  if offs >? buff_size (cache ctx) then Some (RBUF_ERR_BAD_OFFS, ctx, buff, [])
  else
    let ending_byte_no := U32.add offs size in
    if ending_byte_no >? buff_size (cache ctx)
    then Some (RBUF_ERR_BAD_SIZE, ctx, buff, [])
    else if bs =? 0 then None
    else
      let starting_block_idx := offs / bs in
      let ending_block_idx := ending_byte_no / bs in
      if starting_block_idx =? ending_block_idx then
        match bque_item (bque ctx) (U32.to_s32 starting_block_idx) with
        | None => Some (RBUF_ERR, ctx, buff, [])
        | Some mod_bque_buff =>
            let block_offs := offs mod bs in
            buff1 <- block_load (bque ctx) mod_bque_buff block_offs buff 0 size ;;
            Some (RBUF_OK, ctx, buff1,
                  [ {| sc_block := starting_block_idx; sc_block_offs := block_offs;
                       sc_buff_offs := 0; sc_size := size |} ])
        end
      else
        match bque_item (bque ctx) (U32.to_s32 starting_block_idx) with
        | None => Some (RBUF_ERR, ctx, buff, [])
        | Some mod_bque_buff =>
            let block_offs := offs mod bs in
            let curt_size := U32.sub bs block_offs in
            buff1 <- block_load (bque ctx) mod_bque_buff block_offs buff 0 curt_size ;;
            let buff_offs := curt_size in
            let rest_size := U32.sub size curt_size in
            let first := U32.add starting_block_idx 1 in
            let bound := U32.add ending_block_idx 1 in
            '(res, buff2, log) <- copy_to_loop (Z.to_nat (bound - first)) first
                                    (bque ctx) bs buff1 buff_offs rest_size ;;
            Some (res, ctx, buff2,
                  {| sc_block := starting_block_idx; sc_block_offs := block_offs;
                     sc_buff_offs := 0; sc_size := curt_size |} :: log)
        end.

(** ** Well-formed buffers

    The data model of a buffer: the sizes are 32-bit values, the capacity is
    the product of block count and block size (and fits 32 bits), the logical
    size is within the capacity and the configured maximum, and the block
    store holds at least the recorded number of blocks, each of the block
    size.  The store may hold more than [block_num] blocks: a growth that
    fails half-way leaves its blocks behind. *)
Record wf (ctx : rbuf_ctx) : Prop := {
  wf_block_size : 0 < block_size (conf ctx) < U32.modulus;
  wf_size_max : U32.range (size_max (conf ctx));
  wf_block_num : 0 <= block_num (cache ctx);
  wf_buff_cap : buff_cap (cache ctx) = block_size (conf ctx) * block_num (cache ctx);
  wf_cap_range : buff_cap (cache ctx) < U32.modulus;
  wf_buff_size : 0 <= buff_size (cache ctx) <= buff_cap (cache ctx);
  wf_buff_size_max : buff_size (cache ctx) <= size_max (conf ctx);
  wf_held : block_num (cache ctx) <= len (bque_nodes (bque ctx));
  wf_blocks : Forall (fun b => len b = block_size (conf ctx)) (bque_nodes (bque ctx))
}.

(** a configuration (two 32-bit values) under which the capacity never
    leaves 32 bits *)
Definition conf_fits (c : rbuf_conf) : Prop :=
  0 < block_size c < U32.modulus /\ 0 <= size_max c /\
  size_max c + block_size c <= U32.modulus.

(** the first [n] block allocations of the store succeed *)
Definition grants (q : bque_ctx) (n : nat) : Prop :=
  Forall (fun r => r = BQUE_OK) (firstn n (bque_fate q)).

(** the number of blocks a logical size needs *)
Definition blocks_for (bs size : Z) : Z :=
  if size mod bs =? 0 then size / bs else size / bs + 1.

(** the buffers a program can hold: made by [rbuf_new] with the
    configuration [c], then taken through any calls with defined results *)
Inductive reachable (c : rbuf_conf) : rbuf_ctx -> Prop :=
| reach_new (env : alloc_env) (ctx : rbuf_ctx) :
    rbuf_new env (Some c) = (RBUF_OK, Some ctx) -> reachable c ctx
| reach_resize (ctx ctx' : rbuf_ctx) (size : Z) (r : rbuf_res) :
    reachable c ctx -> U32.range size ->
    rbuf_resize ctx size = Some (r, ctx') -> reachable c ctx'
| reach_copy_from (ctx ctx' : rbuf_ctx) (buff : list byte) (offs size : Z)
    (r : rbuf_res) (log : list subcopy) :
    reachable c ctx -> U32.range offs -> U32.range size ->
    rbuf_copy_from ctx buff offs size = Some (r, ctx', log) -> reachable c ctx'
| reach_copy_to (ctx ctx' : rbuf_ctx) (buff buff' : list byte) (offs size : Z)
    (r : rbuf_res) (log : list subcopy) :
    reachable c ctx -> U32.range offs -> U32.range size ->
    rbuf_copy_to ctx buff offs size = Some (r, ctx', buff', log) -> reachable c ctx'.

(** ** Sample buffers *)

Definition plain_env : alloc_env :=
  {| store_outcome := BQUE_OK; ctx_allocated := true; enqueue_fate := [] |}.

Definition conf_4_16 : rbuf_conf := {| block_size := 4; size_max := 16 |}.

(** the context [rbuf_new] stores through its first argument *)
Definition created (env : alloc_env) (c : option rbuf_conf) : option rbuf_ctx :=
  snd (rbuf_new env c).

(** a fresh buffer of block size 4 and maximum size 16 *)
Definition fresh_4_16 (fate : list bque_res) : rbuf_ctx :=
  {| bque := {| bque_nodes := []; bque_fate := fate |};
     conf := conf_4_16;
     cache := {| block_num := 0; buff_cap := 0; buff_size := 0;
                 last_block_buff_size := 0 |} |}.

(** [fresh_4_16 []] after [rbuf_resize] to 8 bytes *)
Definition resized_8 : rbuf_ctx :=
  {| bque := {| bque_nodes := [repeat x00 4; repeat x00 4]; bque_fate := [] |};
     conf := conf_4_16;
     cache := {| block_num := 2; buff_cap := 8; buff_size := 8;
                 last_block_buff_size := 4 |} |}.

(** a buffer whose growth to 8 bytes failed at the second block: one block
    is held, none is recorded *)
Definition stale_1 : rbuf_ctx :=
  {| bque := {| bque_nodes := [repeat x00 4]; bque_fate := [] |};
     conf := conf_4_16;
     cache := {| block_num := 0; buff_cap := 0; buff_size := 0;
                 last_block_buff_size := 0 |} |}.

(** the scenario of the spec: [fresh_4_16 []] after the append of "AB" ... *)
Definition ab_2 : rbuf_ctx :=
  {| bque := {| bque_nodes := [["A"; "B"; x00; x00]%byte]; bque_fate := [] |};
     conf := conf_4_16;
     cache := {| block_num := 1; buff_cap := 4; buff_size := 2;
                 last_block_buff_size := 2 |} |}.

(** ... and after the append of "CDEF" *)
Definition abcdef_6 : rbuf_ctx :=
  {| bque := {| bque_nodes := [["A"; "B"; "C"; "D"]%byte; ["E"; "F"; x00; x00]%byte];
                bque_fate := [] |};
     conf := conf_4_16;
     cache := {| block_num := 2; buff_cap := 8; buff_size := 6;
                 last_block_buff_size := 2 |} |}.

(** ... and after the copy-in of "X" at offset 6, past the logical size *)
Definition abcdefx_6 : rbuf_ctx :=
  {| bque := {| bque_nodes := [["A"; "B"; "C"; "D"]%byte; ["E"; "F"; "X"; x00]%byte];
                bque_fate := [] |};
     conf := conf_4_16;
     cache := {| block_num := 2; buff_cap := 8; buff_size := 6;
                 last_block_buff_size := 2 |} |}.

(** "ABCDEF" with "XY" stored at offset 1, and that buffer resized to 3 bytes *)
Definition axydef_6 : rbuf_ctx :=
  {| bque := {| bque_nodes := [["A"; "X"; "Y"; "D"]%byte; ["E"; "F"; x00; x00]%byte];
                bque_fate := [] |};
     conf := conf_4_16;
     cache := {| block_num := 2; buff_cap := 8; buff_size := 6;
                 last_block_buff_size := 2 |} |}.

Definition axy_3 : rbuf_ctx :=
  {| bque := {| bque_nodes := [["A"; "X"; "Y"; "D"]%byte]; bque_fate := [] |};
     conf := conf_4_16;
     cache := {| block_num := 1; buff_cap := 4; buff_size := 3;
                 last_block_buff_size := 3 |} |}.

(** [fresh_4_16 []] after [rbuf_resize] to 4 bytes, and then after the
    copy-in of "ABCD" at offset 0 *)
Definition resized_4 : rbuf_ctx :=
  {| bque := {| bque_nodes := [repeat x00 4]; bque_fate := [] |};
     conf := conf_4_16;
     cache := {| block_num := 1; buff_cap := 4; buff_size := 4;
                 last_block_buff_size := 4 |} |}.

Definition abcd_4 : rbuf_ctx :=
  {| bque := {| bque_nodes := [["A"; "B"; "C"; "D"]%byte]; bque_fate := [] |};
     conf := conf_4_16;
     cache := {| block_num := 1; buff_cap := 4; buff_size := 4;
                 last_block_buff_size := 4 |} |}.

(** a buffer of the default configuration resized to 540 bytes *)
Definition default_540 : rbuf_ctx :=
  {| bque := {| bque_nodes := [repeat x00 512; repeat x00 512]; bque_fate := [] |};
     conf := {| block_size := RBUF_DEF_BLOCK_SIZE; size_max := RBUF_DEF_SIZE_MAX |};
     cache := {| block_num := 2; buff_cap := 1024; buff_size := 540;
                 last_block_buff_size := 28 |} |}.

(** the two sub-copies of a copy of 40 bytes at offset 500 with blocks of
    512 bytes *)
Definition boundary_split : list subcopy :=
  [ {| sc_block := 0; sc_block_offs := 500; sc_buff_offs := 0; sc_size := 12 |};
    {| sc_block := 1; sc_block_offs := 0; sc_buff_offs := 12; sc_size := 28 |} ].

(** ** Arithmetic of the 32-bit operations *)

Lemma modulus_eq : U32.modulus = 4294967296.
Proof. reflexivity. Qed.

Lemma wrap_small (z : Z) : U32.range z -> U32.wrap z = z.
Proof. intros H. apply Z.mod_small. exact H. Qed.

Lemma add_small (a b : Z) : 0 <= a + b < U32.modulus -> U32.add a b = a + b.
Proof. intros H. apply wrap_small. exact H. Qed.

Lemma sub_small (a b : Z) : 0 <= a - b < U32.modulus -> U32.sub a b = a - b.
Proof. intros H. apply wrap_small. exact H. Qed.

Lemma to_s32_small (z : Z) : z < 2 ^ 31 -> U32.to_s32 z = z.
Proof.
  intros H. unfold U32.to_s32.
  destruct (Z.ltb_spec z (2 ^ 31)); [reflexivity | lia].
Qed.

Ltac u32_range := unfold U32.range; rewrite ?modulus_eq; cbn; lia.

(** projections of the context applied to an explicit record *)
Ltac fields :=
  cbn [bque conf cache block_num buff_cap buff_size last_block_buff_size
       block_size size_max set_cache set_bque bque_nodes bque_fate].

Tactic Notation "fields" "in" hyp(H1) "," hyp(H2) :=
  cbn [bque conf cache block_num buff_cap buff_size last_block_buff_size
       block_size size_max set_cache set_bque bque_nodes bque_fate] in H1, H2.

Ltac zbool :=
  repeat match goal with
  | |- context [?a >? ?b] => rewrite (Z.gtb_ltb a b)
  | |- context [?a <? ?b] => destruct (Z.ltb_spec a b)
  | |- context [?a <=? ?b] => destruct (Z.leb_spec a b)
  | |- context [?a =? ?b] => destruct (Z.eqb_spec a b)
  end; cbn [negb andb orb].

(** the block count computed at lines 151-153 is the rounded-up quotient *)
Lemma new_block_num_eq (bs size : Z) :
  0 < bs -> U32.range size ->
  U32.add (size / bs) (if negb (size mod bs =? 0) then 1 else 0) = blocks_for bs size.
Proof.
  intros Hbs [H0 Hmax]. rewrite modulus_eq in Hmax. unfold blocks_for.
  assert (Hq : 0 <= size / bs) by (apply Z.div_pos; lia).
  assert (Hle : size / bs <= size) by (apply Z.div_le_upper_bound; nia).
  destruct (Z.eqb_spec (size mod bs) 0) as [Hr | Hr]; cbn [negb].
  - rewrite add_small; rewrite ?modulus_eq; lia.
  - assert (bs <> 1) by (intros ->; rewrite Z.mod_1_r in Hr; lia).
    assert (size / bs <= size / 2) by (apply Z.div_le_compat_l; lia).
    assert (size / 2 < 2147483648) by (apply Z.div_lt_upper_bound; lia).
    rewrite add_small; rewrite ?modulus_eq; lia.
Qed.

Lemma blocks_for_bounds (bs size : Z) :
  0 < bs -> 0 <= size ->
  0 <= blocks_for bs size /\
  size <= bs * blocks_for bs size < size + bs.
Proof.
  intros Hbs H0. unfold blocks_for.
  pose proof (Z.div_mod size bs ltac:(lia)) as Hdm.
  pose proof (Z.mod_pos_bound size bs Hbs) as Hm.
  assert (0 <= size / bs) by (apply Z.div_pos; lia).
  destruct (Z.eqb_spec (size mod bs) 0); nia.
Qed.

(** ** The block loops of [rbuf_resize] *)

Lemma grow_loop_ok (n : nat) : forall (q : bque_ctx) (bs : Z),
  grants q n ->
  resize_grow_loop n q bs =
    (BQUE_OK, {| bque_nodes := bque_nodes q ++ repeat (repeat x00 (Z.to_nat bs)) n;
                 bque_fate := skipn n (bque_fate q) |}).
Proof.
  induction n as [| n IH]; intros q bs Hg; cbn [resize_grow_loop].
  - cbn. rewrite app_nil_r. destruct q; reflexivity.
  - unfold grants in Hg. unfold bque_enqueue.
    destruct (bque_fate q) as [| r fate] eqn:Hf.
    + rewrite IH by (unfold grants; cbn; rewrite firstn_nil; constructor).
      cbn. rewrite <- app_assoc. destruct n; reflexivity.
    + cbn [firstn] in Hg. inversion Hg as [| ? ? Hr Hrest]; subst.
      rewrite IH by exact Hrest. cbn. rewrite <- app_assoc. reflexivity.
Qed.

(** whatever the allocator does, the growth loop only appends blocks, and a
    failing one reports the allocator's error *)
Lemma grow_loop_nodes (n : nat) : forall (q q' : bque_ctx) (bs : Z) (r : bque_res),
  resize_grow_loop n q bs = (r, q') ->
  exists k : nat,
    bque_nodes q' = bque_nodes q ++ repeat (repeat x00 (Z.to_nat bs)) k /\
    (k <= n)%nat /\ (r = BQUE_OK -> k = n).
Proof.
  induction n as [| n IH]; intros q q' bs r H; cbn [resize_grow_loop] in H.
  - inversion H; subst. exists 0%nat. cbn. rewrite app_nil_r. auto.
  - unfold bque_enqueue in H.
    destruct (bque_fate q) as [| [ | | ] fate].
    + apply IH in H. destruct H as (k & Hk & Hle & Hok). exists (S k).
      cbn in Hk. rewrite <- app_assoc in Hk. cbn. split; [exact Hk |].
      split; [lia | intros E; f_equal; auto].
    + apply IH in H. destruct H as (k & Hk & Hle & Hok). exists (S k).
      cbn in Hk. rewrite <- app_assoc in Hk. cbn. split; [exact Hk |].
      split; [lia | intros E; f_equal; auto].
    + inversion H; subst. exists 0%nat. cbn. rewrite app_nil_r.
      repeat split; [lia | discriminate].
    + inversion H; subst. exists 0%nat. cbn. rewrite app_nil_r.
      repeat split; [lia | discriminate].
Qed.

Lemma removelast_firstn_len {A} (l : list A) :
  removelast l = firstn (length l - 1) l.
Proof.
  induction l as [| a l IH]; [reflexivity |].
  destruct l as [| b l]; [reflexivity |].
  change (removelast (a :: b :: l)) with (a :: removelast (b :: l)).
  rewrite IH.
  replace (length (b :: l) - 1)%nat with (length l) by (cbn [length]; lia).
  replace (length (a :: b :: l) - 1)%nat with (S (length l)) by (cbn [length]; lia).
  reflexivity.
Qed.

Lemma shrink_loop_ok (n : nat) : forall (q : bque_ctx),
  (n <= length (bque_nodes q))%nat ->
  resize_shrink_loop n q =
    (BQUE_OK, {| bque_nodes := firstn (length (bque_nodes q) - n) (bque_nodes q);
                 bque_fate := bque_fate q |}).
Proof.
  induction n as [| n IH]; intros q Hn; cbn [resize_shrink_loop].
  - rewrite Nat.sub_0_r, firstn_all. destruct q; reflexivity.
  - unfold bque_forfeit. destruct (bque_nodes q) as [| b l] eqn:Hq; [cbn in Hn; lia |].
    rewrite IH; cbn [bque_nodes bque_fate].
    + rewrite removelast_firstn_len, length_firstn, firstn_firstn.
      do 2 f_equal. f_equal. cbn [length] in *. lia.
    + rewrite removelast_firstn_len, length_firstn. cbn [length] in *. lia.
Qed.

(** ** [rbuf_resize] *)

(** C4: a size above [size_max] is refused with [RBUF_ERR_BAD_SIZE] and the
    whole context (cached block count, capacity, logical size, fill of the
    last block, the configuration and the blocks held) is left as it was. *)
Theorem resize_too_large_rejected (ctx : rbuf_ctx) (size : Z) :
  size > size_max (conf ctx) ->
  rbuf_resize ctx size = Some (RBUF_ERR_BAD_SIZE, ctx).
Proof.
  intros H. unfold rbuf_resize.
  rewrite Z.gtb_ltb. destruct (Z.ltb_spec (size_max (conf ctx)) size); [reflexivity | lia].
Qed.

Lemma resize_too_large_rejected_witness :
  17 > size_max (conf (fresh_4_16 [])) /\
  rbuf_resize (fresh_4_16 []) 17 = Some (RBUF_ERR_BAD_SIZE, fresh_4_16 []).
Proof.
  split; [cbn; lia | apply (resize_too_large_rejected (fresh_4_16 []) 17); cbn; lia].
Defined.

(** a call of [rbuf_resize] has a defined result as soon as the block size
    is not zero, and never touches the configuration *)
Lemma resize_defined (ctx : rbuf_ctx) (size : Z) :
  block_size (conf ctx) <> 0 ->
  exists r ctx', rbuf_resize ctx size = Some (r, ctx') /\ conf ctx' = conf ctx.
Proof.
  intros Hbs. unfold rbuf_resize.
  destruct (size >? size_max (conf ctx)); [eauto |].
  destruct (Z.eqb_spec (block_size (conf ctx)) 0) as [E | _]; [contradiction |].
  cbv zeta.
  destruct (_ >? block_num (cache ctx)).
  - destruct (resize_grow_loop _ _ _) as [[ | | ] q]; eauto.
  - destruct (_ <? block_num (cache ctx)).
    + destruct (resize_shrink_loop _ _) as [[ | | ] q]; eauto.
    + eauto.
Qed.

(** a failing [rbuf_resize] leaves the cached fields alone *)
Lemma resize_failure_keeps_cache (ctx ctx' : rbuf_ctx) (size : Z) (r : rbuf_res) :
  rbuf_resize ctx size = Some (r, ctx') -> r <> RBUF_OK ->
  cache ctx' = cache ctx /\ conf ctx' = conf ctx /\
  r <> RBUF_ERR_BAD_OFFS.
Proof.
  unfold rbuf_resize. intros H Hr.
  destruct (size >? size_max (conf ctx)).
  { inversion H; subst. repeat split; discriminate. }
  destruct (block_size (conf ctx) =? 0); [discriminate |].
  cbv zeta in H.
  destruct (_ >? block_num (cache ctx)).
  - destruct (resize_grow_loop _ _ _) as [[ | | ] q]; inversion H; subst;
      try contradiction; repeat split; discriminate.
  - destruct (_ <? block_num (cache ctx)).
    + destruct (resize_shrink_loop _ _) as [[ | | ] q]; inversion H; subst;
        try contradiction; repeat split; discriminate.
    + inversion H; subst. contradiction.
Qed.

(** what a successful [rbuf_resize] leaves in the cache *)
Lemma resize_success_cache (ctx ctx' : rbuf_ctx) (size : Z) :
  rbuf_resize ctx size = Some (RBUF_OK, ctx') ->
  let bs := block_size (conf ctx) in
  let n := U32.add (size / bs) (if negb (size mod bs =? 0) then 1 else 0) in
  bs <> 0 /\ size <= size_max (conf ctx) /\ conf ctx' = conf ctx /\
  buff_size (cache ctx') = size /\
  last_block_buff_size (cache ctx') =
    (if negb (size / bs =? 0) && (size mod bs =? 0) then bs else size mod bs) /\
  block_num (cache ctx') = n /\
  (n = block_num (cache ctx) -> buff_cap (cache ctx') = buff_cap (cache ctx)) /\
  (n <> block_num (cache ctx) -> buff_cap (cache ctx') = U32.mul bs n).
Proof.
  unfold rbuf_resize. intros H.
  rewrite Z.gtb_ltb in H.
  destruct (Z.ltb_spec (size_max (conf ctx)) size) as [Hm | Hm]; [discriminate |].
  destruct (Z.eqb_spec (block_size (conf ctx)) 0) as [E | Hbs]; [discriminate |].
  cbv zeta in *. rewrite Z.gtb_ltb in H.
  destruct (Z.ltb_spec (block_num (cache ctx)) (U32.add (size / block_size (conf ctx))
              (if negb (size mod block_size (conf ctx) =? 0) then 1 else 0))) as [Hg | Hg].
  - destruct (resize_grow_loop _ _ _) as [[ | | ] q]; inversion H; subst; clear H.
    cbn. repeat split; auto; lia.
  - destruct (Z.ltb_spec (U32.add (size / block_size (conf ctx))
              (if negb (size mod block_size (conf ctx) =? 0) then 1 else 0))
              (block_num (cache ctx))) as [Hl | Hl].
    + destruct (resize_shrink_loop _ _) as [[ | | ] q]; inversion H; subst; clear H.
      cbn. repeat split; auto; lia.
    + inversion H; subst; clear H. cbn. repeat split; auto; lia.
Qed.

(** C5: after a successful [rbuf_resize] to [size] the fill of the last block
    is [size mod block_size], except that it is [block_size] when [size] is
    a nonzero multiple of the block size. *)
Theorem resize_last_block_fill (ctx ctx' : rbuf_ctx) (size : Z) :
  U32.range (block_size (conf ctx)) -> U32.range size ->
  rbuf_resize ctx size = Some (RBUF_OK, ctx') ->
  let bs := block_size (conf ctx) in
  (size <> 0 /\ size mod bs = 0 -> last_block_buff_size (cache ctx') = bs) /\
  (~ (size <> 0 /\ size mod bs = 0) -> last_block_buff_size (cache ctx') = size mod bs).
Proof.
  intros [Hb0 _] [Hs0 _] H.
  apply resize_success_cache in H. cbv zeta in *.
  destruct H as (Hbs & _ & _ & _ & Hlast & _).
  rewrite Hlast. set (bs := block_size (conf ctx)) in *.
  assert (Hpos : 0 < bs) by lia.
  pose proof (Z.div_mod size bs ltac:(lia)) as Hdm.
  pose proof (Z.mod_pos_bound size bs Hpos) as Hmod.
  assert (Hq : 0 <= size / bs) by (apply Z.div_pos; lia).
  destruct (Z.eqb_spec (size / bs) 0) as [Eq | Eq];
    destruct (Z.eqb_spec (size mod bs) 0) as [Er | Er]; cbn [negb andb]; split;
    intros; try reflexivity; lia.
Qed.

Lemma resize_last_block_fill_witness :
  rbuf_resize (fresh_4_16 []) 8 = Some (RBUF_OK, resized_8) /\
  last_block_buff_size (cache resized_8) = 4.
Proof.
  assert (H : rbuf_resize (fresh_4_16 []) 8 = Some (RBUF_OK, resized_8)) by reflexivity.
  split; [exact H |].
  apply (resize_last_block_fill (fresh_4_16 []) resized_8 8);
    [u32_range | u32_range | exact H | split; [lia | reflexivity]].
Defined.

Lemma len_app {A} (l l' : list A) : len (l ++ l') = len l + len l'.
Proof. unfold len. rewrite length_app. lia. Qed.

Lemma len_repeat {A} (x : A) (n : nat) : len (repeat x n) = Z.of_nat n.
Proof. unfold len. rewrite repeat_length. reflexivity. Qed.

Lemma len_nonneg {A} (l : list A) : 0 <= len l.
Proof. unfold len. lia. Qed.

Lemma len_firstn {A} (l : list A) (n : nat) :
  (n <= length l)%nat -> len (firstn n l) = Z.of_nat n.
Proof. intros H. unfold len. rewrite length_firstn. lia. Qed.

Lemma Forall_firstn {A} (P : A -> Prop) (n : nat) (l : list A) :
  Forall P l -> Forall P (firstn n l).
Proof.
  intros H. rewrite <- (firstn_skipn n l) in H.
  apply Forall_app in H. apply H.
Qed.

Lemma blocks_for_range (bs size : Z) :
  0 < bs -> U32.range size -> U32.range (blocks_for bs size).
Proof.
  intros Hbs Hs. rewrite <- (new_block_num_eq bs size Hbs Hs).
  apply Z.mod_pos_bound. reflexivity.
Qed.

(** [rbuf_resize] succeeds when the size is within the maximum and the block
    store grants the blocks the growth needs; the context it leaves is
    described field by field. *)
Lemma resize_succeeds (ctx : rbuf_ctx) (size : Z) :
  wf ctx -> U32.range size -> size <= size_max (conf ctx) ->
  let bs := block_size (conf ctx) in
  grants (bque ctx) (Z.to_nat (blocks_for bs size - block_num (cache ctx))) ->
  exists ctx',
    rbuf_resize ctx size = Some (RBUF_OK, ctx') /\
    conf ctx' = conf ctx /\
    block_num (cache ctx') = blocks_for bs size /\
    buff_size (cache ctx') = size /\
    blocks_for bs size <= len (bque_nodes (bque ctx')) /\
    Forall (fun b => len b = bs) (bque_nodes (bque ctx')).
Proof.
  intros Hwf Hs Hmax bs Hg. destruct Hwf. fold bs in wf_block_size0, wf_buff_cap0, wf_blocks0.
  pose proof (blocks_for_range bs size ltac:(lia) Hs) as Hr.
  unfold rbuf_resize. fold bs.
  rewrite Z.gtb_ltb. destruct (Z.ltb_spec (size_max (conf ctx)) size); [lia |].
  destruct (Z.eqb_spec bs 0); [lia |].
  cbv zeta. rewrite new_block_num_eq by (assumption || lia).
  assert (Hbn : block_num (cache ctx) < U32.modulus).
  { rewrite modulus_eq in *. nia. }
  unfold U32.range in Hr.
  rewrite Z.gtb_ltb.
  destruct (Z.ltb_spec (block_num (cache ctx)) (blocks_for bs size)) as [Hgt | Hle].
  - rewrite sub_small by lia. rewrite grow_loop_ok by exact Hg.
    eexists. split; [reflexivity |]. cbn.
    repeat split; try reflexivity.
    + rewrite len_app, len_repeat. lia.
    + apply Forall_app. split; [assumption |].
      apply Forall_forall. intros b Hb. apply repeat_spec in Hb. subst b.
      rewrite len_repeat. lia.
  - destruct (Z.ltb_spec (blocks_for bs size) (block_num (cache ctx))) as [Hlt | Hge].
    + rewrite sub_small by lia.
      rewrite shrink_loop_ok by (unfold len in *; lia).
      eexists. split; [reflexivity |]. cbn.
      repeat split; try reflexivity.
      * rewrite len_firstn by lia. unfold len in *. lia.
      * apply Forall_firstn. assumption.
    + eexists. split; [reflexivity |]. cbn.
      repeat split; try reflexivity; try assumption; lia.
Qed.

(** C1 (amended): for a size within [size_max], [rbuf_resize] succeeds
    provided the block store grants every block the growth asks for, and
    [rbuf_status] then reports that size and the block count
    [q] if [size mod block_size = 0], else [q + 1], for [q = size / block_size]. *)
Theorem resize_then_status (ctx : rbuf_ctx) (size : Z) :
  wf ctx -> U32.range size -> size <= size_max (conf ctx) ->
  let bs := block_size (conf ctx) in
  grants (bque ctx) (Z.to_nat (blocks_for bs size - block_num (cache ctx))) ->
  exists ctx',
    rbuf_resize ctx size = Some (RBUF_OK, ctx') /\
    rbuf_status ctx' =
      (RBUF_OK,
       {| stat_block_num := if size mod bs =? 0 then size / bs else size / bs + 1;
          stat_buff_size := size |}).
Proof.
  intros Hwf Hs Hmax bs Hg.
  destruct (resize_succeeds ctx size Hwf Hs Hmax Hg) as (ctx' & Hr & _ & Hn & Hsz & _).
  exists ctx'. split; [exact Hr |].
  unfold rbuf_status. rewrite Hn, Hsz. reflexivity.
Qed.

Lemma fresh_wf (fate : list bque_res) : wf (fresh_4_16 fate).
Proof. constructor; cbn; rewrite ?modulus_eq; try lia. u32_range. constructor. Qed.

Lemma resize_then_status_witness :
  exists ctx',
    rbuf_resize (fresh_4_16 []) 6 = Some (RBUF_OK, ctx') /\
    rbuf_status ctx' = (RBUF_OK, {| stat_block_num := 2; stat_buff_size := 6 |}).
Proof.
  apply (resize_then_status (fresh_4_16 []) 6);
    [apply fresh_wf | u32_range | cbn; lia | cbn; constructor].
Defined.

(** C1 as stated fails: on a buffer that [rbuf_new] has just created, a
    resize to 1 byte (within [size_max = 16]) returns [RBUF_ERR_NO_MEM] when
    the block store cannot allocate the block. *)
Lemma resize_starved_counterexample :
  created {| store_outcome := BQUE_OK; ctx_allocated := true;
             enqueue_fate := [BQUE_ERR_NO_MEM] |} (Some conf_4_16)
    = Some (fresh_4_16 [BQUE_ERR_NO_MEM]) /\
  1 <= size_max (conf (fresh_4_16 [BQUE_ERR_NO_MEM])) /\
  rbuf_resize (fresh_4_16 [BQUE_ERR_NO_MEM]) 1
    = Some (RBUF_ERR_NO_MEM, fresh_4_16 []).
Proof. repeat split. cbn. lia. Qed.

(** C10: when [rbuf_resize] fails after the block store has already taken
    new blocks in this call, the cached block count, capacity, logical size
    and last-block fill are what they were, and the store holds more blocks
    than [block_num] records. *)
Theorem resize_partial_growth (ctx ctx' : rbuf_ctx) (size : Z) (r : rbuf_res) :
  block_num (cache ctx) <= len (bque_nodes (bque ctx)) ->
  rbuf_resize ctx size = Some (r, ctx') ->
  r <> RBUF_OK ->
  len (bque_nodes (bque ctx)) < len (bque_nodes (bque ctx')) ->
  cache ctx' = cache ctx /\
  block_num (cache ctx') < len (bque_nodes (bque ctx')) /\
  (r = RBUF_ERR_NO_MEM \/ r = RBUF_ERR).
Proof.
  intros Hheld H Hr Hmore.
  destruct (resize_failure_keeps_cache ctx ctx' size r H Hr) as (Hc & _ & _).
  split; [exact Hc |]. split; [rewrite Hc; lia |].
  unfold rbuf_resize in H.
  destruct (size >? size_max (conf ctx)).
  { inversion H; subst. lia. }
  destruct (block_size (conf ctx) =? 0); [discriminate |].
  cbv zeta in H.
  destruct (_ >? block_num (cache ctx)).
  - destruct (resize_grow_loop _ _ _) as [[ | | ] q]; inversion H; subst; auto.
    contradiction.
  - destruct (_ <? block_num (cache ctx)).
    + destruct (resize_shrink_loop _ _) as [[ | | ] q]; inversion H; subst; auto.
      contradiction.
    + inversion H; subst. contradiction.
Qed.

Lemma resize_partial_growth_witness :
  rbuf_resize (fresh_4_16 [BQUE_OK; BQUE_ERR_NO_MEM]) 8
    = Some (RBUF_ERR_NO_MEM, stale_1) /\
  cache stale_1 = cache (fresh_4_16 [BQUE_OK; BQUE_ERR_NO_MEM]) /\
  block_num (cache stale_1) < len (bque_nodes (bque stale_1)) /\
  (RBUF_ERR_NO_MEM = RBUF_ERR_NO_MEM \/ RBUF_ERR_NO_MEM = RBUF_ERR).
Proof.
  split; [reflexivity |].
  apply (resize_partial_growth (fresh_4_16 [BQUE_OK; BQUE_ERR_NO_MEM]) stale_1 8
           RBUF_ERR_NO_MEM);
    [cbn; lia | reflexivity | discriminate | cbn; lia].
Defined.

(** ** The invariant is kept *)

Lemma new_wf (env : alloc_env) (c : option rbuf_conf) (ctx : rbuf_ctx) :
  match c with
  | Some c => 0 < block_size c < U32.modulus /\ U32.range (size_max c)
  | None => True
  end ->
  rbuf_new env c = (RBUF_OK, Some ctx) ->
  wf ctx /\ bque_nodes (bque ctx) = [] /\
  rbuf_status ctx = (RBUF_OK, {| stat_block_num := 0; stat_buff_size := 0 |}).
Proof.
  intros Hc H. unfold rbuf_new, bque_new in H.
  destruct (store_outcome env); try discriminate.
  destruct (ctx_allocated env); try discriminate.
  inversion H; subst; clear H. split; [| split; reflexivity].
  assert (Hd : 0 < RBUF_DEF_BLOCK_SIZE < U32.modulus /\ U32.range RBUF_DEF_SIZE_MAX).
  { unfold U32.range, RBUF_DEF_BLOCK_SIZE, RBUF_DEF_SIZE_MAX. rewrite modulus_eq. lia. }
  destruct c as [c |]; [destruct Hc as [Hc1 Hc2] | destruct Hd as [Hc1 Hc2]];
    unfold U32.range in Hc2;
    (constructor; unfold U32.range; cbn; rewrite ?modulus_eq in *;
     first [lia | apply Forall_nil]).
Qed.

Lemma resize_wf (ctx ctx' : rbuf_ctx) (size : Z) (r : rbuf_res) :
  wf ctx -> conf_fits (conf ctx) -> U32.range size ->
  rbuf_resize ctx size = Some (r, ctx') ->
  wf ctx'.
Proof.
  intros Hwf (_ & _ & Hfit) Hs H. pose proof Hwf as Hwf0. destruct Hwf.
  set (bs := block_size (conf ctx)) in *.
  pose proof (blocks_for_range bs size ltac:(lia) Hs) as Hr.
  pose proof (blocks_for_bounds bs size ltac:(lia) ltac:(apply Hs)) as Hb.
  unfold rbuf_resize in H. fold bs in H.
  rewrite Z.gtb_ltb in H.
  destruct (Z.ltb_spec (size_max (conf ctx)) size) as [Hm | Hm].
  { inversion H; subst. exact Hwf0. }
  destruct (Z.eqb_spec bs 0); [lia |].
  cbv zeta in H. rewrite new_block_num_eq in H by (assumption || lia).
  assert (Hmul : U32.mul bs (blocks_for bs size) = bs * blocks_for bs size).
  { apply wrap_small. unfold U32.range. lia. }
  assert (Hbn : block_num (cache ctx) < U32.modulus).
  { rewrite wf_buff_cap0 in wf_cap_range0.
    apply Z.le_lt_trans with (bs * block_num (cache ctx)); [| assumption].
    rewrite <- (Z.mul_1_l (block_num (cache ctx))) at 1.
    apply Z.mul_le_mono_nonneg_r; lia. }
  unfold U32.range in Hr, Hs.
  rewrite Z.gtb_ltb in H.
  destruct (Z.ltb_spec (block_num (cache ctx)) (blocks_for bs size)) as [Hgt | Hle].
  - rewrite sub_small in H by lia.
    destruct (resize_grow_loop _ _ _) as [rq q] eqn:Hloop.
    apply grow_loop_nodes in Hloop. destruct Hloop as (k & Hk & Hkn & Hok).
    assert (Hall : Forall (fun b => len b = bs) (bque_nodes q)).
    { rewrite Hk. apply Forall_app. split; [assumption |].
      apply Forall_forall. intros b Hin. apply repeat_spec in Hin. subst b.
      rewrite len_repeat. lia. }
    assert (Hlen : len (bque_nodes q) = len (bque_nodes (bque ctx)) + Z.of_nat k).
    { rewrite Hk, len_app, len_repeat. reflexivity. }
    destruct rq; inversion H; subst r ctx'; clear H.
    + specialize (Hok eq_refl). subst k.
      constructor; fields; fold bs; rewrite ?Hmul; first [assumption | lia].
    + constructor; fields; fold bs; first [assumption | lia].
    + constructor; fields; fold bs; first [assumption | lia].
  - destruct (Z.ltb_spec (blocks_for bs size) (block_num (cache ctx))) as [Hlt | Hge].
    + rewrite sub_small in H by lia.
      rewrite shrink_loop_ok in H by (unfold len in *; lia).
      inversion H; subst r ctx'; clear H.
      constructor; fields; fold bs; rewrite ?Hmul; try first [assumption | lia].
      * rewrite len_firstn by lia. unfold len in *. lia.
      * apply Forall_firstn. assumption.
    + inversion H; subst r ctx'; clear H.
      assert (E : blocks_for bs size = block_num (cache ctx)) by lia.
      rewrite E in Hb.
      constructor; fields; fold bs; first [assumption | lia].
Qed.

(** ** Slices and splices of lists *)

Section ListPieces.

Context {A : Type}.
Implicit Types l pre mid post d : list A.

Lemma slice_app pre d post (p n : Z) :
  len pre = p -> len d = n -> slice (pre ++ d ++ post) p n = d.
Proof.
  intros <- <-. unfold slice, len. rewrite !Nat2Z.id.
  rewrite skipn_app, skipn_all, Nat.sub_diag. cbn [skipn app].
  rewrite firstn_app, firstn_all, Nat.sub_diag. cbn [firstn].
  apply app_nil_r.
Qed.

Lemma splice_app pre old post d (p : Z) :
  len pre = p -> len old = len d ->
  splice (pre ++ old ++ post) p d = pre ++ d ++ post.
Proof.
  intros <- E. unfold splice. f_equal.
  - unfold len. rewrite Nat2Z.id.
    rewrite firstn_app, firstn_all, Nat.sub_diag. cbn [firstn]. apply app_nil_r.
  - f_equal. rewrite <- E. unfold len. rewrite <- Nat2Z.inj_add, Nat2Z.id.
    rewrite app_assoc, skipn_app.
    rewrite skipn_all2 by (rewrite length_app; lia).
    rewrite length_app, Nat.sub_diag. reflexivity.
Qed.

(** a list cut at two positions *)
Lemma cut l (p n : Z) :
  0 <= p -> 0 <= n -> p + n <= len l ->
  exists pre mid post, l = pre ++ mid ++ post /\ len pre = p /\ len mid = n.
Proof.
  intros Hp Hn Hl. unfold len in *.
  exists (firstn (Z.to_nat p) l), (firstn (Z.to_nat n) (skipn (Z.to_nat p) l)),
         (skipn (Z.to_nat n) (skipn (Z.to_nat p) l)).
  rewrite !firstn_skipn. repeat split.
  - rewrite length_firstn. lia.
  - rewrite length_firstn, length_skipn. lia.
Qed.

Lemma len_slice l (p n : Z) :
  0 <= p -> 0 <= n -> p + n <= len l -> len (slice l p n) = n.
Proof.
  intros Hp Hn Hl. destruct (cut l p n Hp Hn Hl) as (pre & mid & post & -> & E1 & E2).
  rewrite (slice_app pre mid post p n E1 E2). exact E2.
Qed.

Lemma len_splice l (p : Z) d :
  0 <= p -> p + len d <= len l -> len (splice l p d) = len l.
Proof.
  intros Hp Hl.
  destruct (cut l p (len d) Hp (len_nonneg d) Hl) as (pre & mid & post & -> & E1 & E2).
  rewrite (splice_app pre mid post d p E1 E2). rewrite !len_app. lia.
Qed.

Lemma splice_nil l (p : Z) : splice l p [] = l.
Proof.
  unfold splice. change (len (@nil A)) with 0. rewrite Z.add_0_r.
  cbn [app]. apply firstn_skipn.
Qed.

Lemma slice_all l : slice l 0 (len l) = l.
Proof. unfold slice, len. rewrite Nat2Z.id. cbn [Z.to_nat skipn]. apply firstn_all. Qed.

Lemma splice_all l d : len d = len l -> splice l 0 d = d.
Proof.
  intros E. unfold splice. cbn [Z.to_nat firstn app]. rewrite Z.add_0_l, E.
  unfold len. rewrite Nat2Z.id, skipn_all. apply app_nil_r.
Qed.

(** a list cut at three positions *)
Lemma cut2 l (p n1 n2 : Z) :
  0 <= p -> 0 <= n1 -> 0 <= n2 -> p + n1 + n2 <= len l ->
  exists pre m1 m2 post,
    l = pre ++ m1 ++ m2 ++ post /\ len pre = p /\ len m1 = n1 /\ len m2 = n2.
Proof.
  intros Hp H1 H2 Hl.
  destruct (cut l p (n1 + n2)) as (pre & mid & post & -> & E1 & E2); try lia.
  destruct (cut mid 0 n1) as (e & m1 & m2 & -> & E3 & E4); try lia.
  destruct e; [| unfold len in E3; cbn in E3; lia]. cbn [app] in *.
  exists pre, m1, m2, post. rewrite <- app_assoc. rewrite len_app in E2.
  repeat split; try assumption; lia.
Qed.

Lemma slice_slice l (p n1 n2 : Z) :
  0 <= p -> 0 <= n1 -> 0 <= n2 -> p + n1 + n2 <= len l ->
  slice l p n1 ++ slice l (p + n1) n2 = slice l p (n1 + n2).
Proof.
  intros Hp H1 H2 Hl.
  destruct (cut2 l p n1 n2 Hp H1 H2 Hl) as (pre & m1 & m2 & post & -> & E0 & E1 & E2).
  rewrite (slice_app pre m1 (m2 ++ post) p n1 E0 E1).
  replace (pre ++ m1 ++ m2 ++ post) with ((pre ++ m1) ++ m2 ++ post) at 1
    by (rewrite <- app_assoc; reflexivity).
  rewrite (slice_app (pre ++ m1) m2 post) by (rewrite ?len_app; lia).
  replace (pre ++ m1 ++ m2 ++ post) with (pre ++ (m1 ++ m2) ++ post)
    by (rewrite <- app_assoc; reflexivity).
  rewrite (slice_app pre (m1 ++ m2) post) by (rewrite ?len_app; lia).
  reflexivity.
Qed.

Lemma slice_split0 l (n n1 : Z) :
  0 <= n1 <= n -> n <= len l ->
  slice l 0 n = slice l 0 n1 ++ slice l n1 (n - n1).
Proof.
  intros H1 Hl.
  rewrite <- (Z.add_0_l n1) at 2. rewrite slice_slice by lia.
  f_equal. lia.
Qed.

Lemma splice_splice l (p : Z) d1 d2 :
  0 <= p -> p + len d1 + len d2 <= len l ->
  splice (splice l p d1) (p + len d1) d2 = splice l p (d1 ++ d2).
Proof.
  intros Hp Hl.
  destruct (cut2 l p (len d1) (len d2) Hp (len_nonneg d1) (len_nonneg d2) Hl)
    as (pre & m1 & m2 & post & -> & E0 & E1 & E2).
  rewrite (splice_app pre m1 (m2 ++ post) d1 p E0 E1).
  replace (pre ++ d1 ++ m2 ++ post) with ((pre ++ d1) ++ m2 ++ post)
    by (rewrite <- app_assoc; reflexivity).
  rewrite (splice_app (pre ++ d1) m2 post d2) by (rewrite ?len_app; lia).
  replace (pre ++ m1 ++ m2 ++ post) with (pre ++ (m1 ++ m2) ++ post)
    by (rewrite <- app_assoc; reflexivity).
  rewrite (splice_app pre (m1 ++ m2) post (d1 ++ d2)) by (rewrite ?len_app; lia).
  rewrite <- !app_assoc. reflexivity.
Qed.

Lemma slice_splice l (p : Z) d :
  0 <= p -> p + len d <= len l -> slice (splice l p d) p (len d) = d.
Proof.
  intros Hp Hl.
  destruct (cut l p (len d) Hp (len_nonneg d) Hl) as (pre & mid & post & -> & E1 & E2).
  rewrite (splice_app pre mid post d p E1 E2).
  apply slice_app; [exact E1 | reflexivity].
Qed.

(** a slice of the middle part is a slice of the whole *)
Lemma slice_inner pre mid post (p n : Z) :
  0 <= p -> 0 <= n -> p + n <= len mid ->
  slice (pre ++ mid ++ post) (len pre + p) n = slice mid p n.
Proof.
  intros Hp Hn Hl.
  destruct (cut mid p n Hp Hn Hl) as (a & b & c & -> & E1 & E2).
  rewrite (slice_app a b c p n E1 E2).
  replace (pre ++ (a ++ b ++ c) ++ post) with ((pre ++ a) ++ b ++ (c ++ post))
    by (rewrite <- !app_assoc; reflexivity).
  apply slice_app; [rewrite len_app; lia | exact E2].
Qed.

(** a splice into the middle part is a splice into the whole *)
Lemma splice_inner pre mid post (p : Z) d :
  0 <= p -> p + len d <= len mid ->
  pre ++ splice mid p d ++ post = splice (pre ++ mid ++ post) (len pre + p) d.
Proof.
  intros Hp Hl.
  destruct (cut mid p (len d) Hp (len_nonneg d) Hl) as (a & b & c & -> & E1 & E2).
  rewrite (splice_app a b c d p E1 E2).
  replace (pre ++ (a ++ b ++ c) ++ post) with ((pre ++ a) ++ b ++ (c ++ post))
    by (rewrite <- !app_assoc; reflexivity).
  rewrite (splice_app (pre ++ a) b (c ++ post) d) by (rewrite ?len_app; lia).
  rewrite <- !app_assoc. reflexivity.
Qed.

End ListPieces.

(** ** Memory lemmas *)

Lemma mem_read_some (m : list byte) (off n : Z) :
  0 <= off -> 0 <= n -> off + n <= len m ->
  mem_read m off n = Some (slice m off n).
Proof. intros. unfold mem_read, in_object. zbool; lia || reflexivity. Qed.

Lemma mem_write_some (m : list byte) (off : Z) (d : list byte) :
  0 <= off -> off + len d <= len m ->
  mem_write m off d = Some (splice m off d).
Proof.
  intros. pose proof (len_nonneg d).
  unfold mem_write, in_object. zbool; lia || reflexivity.
Qed.

Lemma memcpy_some (dst : list byte) (doff : Z) (src : list byte) (soff n : Z) :
  0 <= doff -> 0 <= soff -> 0 <= n -> doff + n <= len dst -> soff + n <= len src ->
  memcpy dst doff src soff n = Some (splice dst doff (slice src soff n)).
Proof.
  intros. unfold memcpy. rewrite mem_read_some by assumption.
  apply mem_write_some; [assumption |]. rewrite len_slice by assumption. assumption.
Qed.

Lemma memcpy_app (dpre dold dpost spre d spost : list byte) :
  len dold = len d ->
  memcpy (dpre ++ dold ++ dpost) (len dpre) (spre ++ d ++ spost) (len spre) (len d)
    = Some (dpre ++ d ++ dpost).
Proof.
  intros E. pose proof (len_nonneg dpre). pose proof (len_nonneg spre).
  pose proof (len_nonneg d). pose proof (len_nonneg dpost). pose proof (len_nonneg spost).
  rewrite memcpy_some by (rewrite ?len_app; lia).
  rewrite (slice_app spre d spost) by reflexivity.
  f_equal. apply splice_app; [reflexivity | exact E].
Qed.

(** ** Blocks and the flat view of the store *)

Lemma len_concat_uniform (bs : Z) (l : list (list byte)) :
  Forall (fun b => len b = bs) l -> len (concat l) = len l * bs.
Proof.
  induction 1 as [| b l Hb _ IH]; [reflexivity |].
  cbn [concat]. rewrite len_app, IH, Hb. unfold len. cbn [length]. lia.
Qed.

Lemma nodes_at (l : list (list byte)) (i : Z) :
  0 <= i < len l ->
  exists A blk B, l = A ++ blk :: B /\ len A = i /\ length A = Z.to_nat i.
Proof.
  intros [H0 H1]. unfold len in *.
  destruct (nth_error l (Z.to_nat i)) as [blk |] eqn:E.
  - apply nth_error_split in E. destruct E as (A & B & -> & EA).
    exists A, blk, B. repeat split; [lia | exact EA].
  - apply nth_error_None in E. lia.
Qed.

Lemma list_set_app {A} (l1 l2 : list A) (x y : A) :
  list_set (l1 ++ x :: l2) (length l1) y = l1 ++ y :: l2.
Proof.
  unfold list_set. rewrite firstn_app, firstn_all, Nat.sub_diag. cbn [firstn].
  rewrite app_nil_r. f_equal. f_equal.
  rewrite skipn_app, skipn_all2 by lia.
  replace (S (length l1) - length l1)%nat with 1%nat by lia. reflexivity.
Qed.

Lemma item_some (q : bque_ctx) (i : Z) :
  0 <= i < len (bque_nodes q) -> i < 2 ^ 31 ->
  exists b, bque_item q (U32.to_s32 i) = Some b /\ ptr b = Z.to_nat i.
Proof.
  intros [H0 H1] H31. rewrite to_s32_small by exact H31. unfold bque_item.
  zbool; try lia. eexists. split; reflexivity.
Qed.

Lemma item_none (q : bque_ctx) (i : Z) :
  len (bque_nodes q) <= i -> i < 2 ^ 31 -> bque_item q (U32.to_s32 i) = None.
Proof.
  intros H1 H31. rewrite to_s32_small by exact H31. unfold bque_item.
  zbool; try lia; reflexivity.
Qed.

Section Blocks.

Variable bs : Z.
Hypothesis bs_pos : 0 < bs.

(** a store into block [i] is a splice into the flat view *)
Lemma block_store_flat (q : bque_ctx) (b : bque_buff) (i bo : Z)
    (src : list byte) (so n : Z) :
  uniform bs q -> 0 <= i < len (bque_nodes q) -> ptr b = Z.to_nat i ->
  0 <= bo -> 0 <= n -> bo + n <= bs -> 0 <= so -> so + n <= len src ->
  exists q',
    block_store q b bo src so n = Some q' /\
    flat q' = splice (flat q) (i * bs + bo) (slice src so n) /\
    uniform bs q' /\
    len (bque_nodes q') = len (bque_nodes q) /\
    bque_fate q' = bque_fate q.
Proof.
  intros Hu Hi Hptr Hbo Hn Hfit Hso Hsrc.
  destruct (nodes_at _ i Hi) as (A & blk & B & Hq & HA & HAn).
  unfold uniform in *. rewrite Hq in Hu.
  apply Forall_app in Hu. destruct Hu as [HuA HuB].
  inversion HuB as [| ? ? Hblk HuB']; subst.
  pose proof (len_slice src so n Hso Hn Hsrc) as Hd.
  unfold block_store. rewrite Hptr, Hq, <- HAn.
  rewrite nth_error_app2, Nat.sub_diag by lia. cbn [nth_error].
  rewrite memcpy_some by lia.
  eexists. split; [reflexivity |]. unfold flat. cbn [bque_nodes bque_fate].
  rewrite Hq, list_set_app. rewrite !concat_app. cbn [concat].
  split; [| split; [| split]].
  - rewrite <- (len_concat_uniform (len blk) A HuA).
    apply splice_inner; lia.
  - apply Forall_app. split; [exact HuA |]. constructor; [| exact HuB'].
    rewrite len_splice; lia.
  - rewrite !len_app. unfold len. cbn [length]. reflexivity.
  - reflexivity.
Qed.

(** a load from block [i] reads a slice of the flat view *)
Lemma block_load_flat (q : bque_ctx) (b : bque_buff) (i bo : Z)
    (dst : list byte) (doff n : Z) :
  uniform bs q -> 0 <= i < len (bque_nodes q) -> ptr b = Z.to_nat i ->
  0 <= bo -> 0 <= n -> bo + n <= bs -> 0 <= doff -> doff + n <= len dst ->
  block_load q b bo dst doff n
    = Some (splice dst doff (slice (flat q) (i * bs + bo) n)).
Proof.
  intros Hu Hi Hptr Hbo Hn Hfit Hdo Hdst.
  destruct (nodes_at _ i Hi) as (A & blk & B & Hq & HA & HAn).
  unfold uniform in *. rewrite Hq in Hu.
  apply Forall_app in Hu. destruct Hu as [HuA HuB].
  inversion HuB as [| ? ? Hblk HuB']; subst.
  unfold block_load. rewrite Hptr, Hq, <- HAn.
  rewrite nth_error_app2, Nat.sub_diag by lia. cbn [nth_error].
  rewrite memcpy_some by lia.
  unfold flat. rewrite Hq, concat_app. cbn [concat].
  rewrite <- (len_concat_uniform (len blk) A HuA).
  rewrite slice_inner by lia. reflexivity.
Qed.

Lemma len_flat (q : bque_ctx) : uniform bs q -> len (flat q) = len (bque_nodes q) * bs.
Proof. apply len_concat_uniform. Qed.

Lemma slice_0 {A} (l : list A) (p : Z) : slice l p 0 = [].
Proof. reflexivity. Qed.

Lemma div_step (R : Z) : bs <= R -> (R - bs) / bs = R / bs - 1.
Proof.
  intros H. replace (R - bs) with (R + (-1) * bs) by lia.
  rewrite Z.div_add by lia. lia.
Qed.

(** the loop of [rbuf_copy_from], started at the beginning of block [i] with
    [R] bytes left: the bytes go to the positions from [i * bs] on, in order;
    the loop fails at its last round when the block after the last byte
    written does not exist *)
Lemma copy_from_loop_flat (buff : list byte) (n : nat) :
  forall (i : Z) (q : bque_ctx) (bo R : Z),
  uniform bs q -> bs < U32.modulus ->
  0 <= i -> 0 <= R -> Z.of_nat n = R / bs + 1 -> i + R / bs < 2 ^ 31 ->
  i * bs + R <= len (bque_nodes q) * bs ->
  0 <= bo -> bo + R <= len buff -> bo + R < U32.modulus ->
  exists q' log,
    copy_from_loop n i q bs buff bo R =
      Some (if i + R / bs <? len (bque_nodes q) then RBUF_OK else RBUF_ERR, q', log) /\
    flat q' = splice (flat q) (i * bs) (slice buff bo R) /\
    uniform bs q' /\
    len (bque_nodes q') = len (bque_nodes q) /\
    bque_fate q' = bque_fate q.
Proof.
  induction n as [| n IH]; intros i q bo R Hu Hbs Hi HR Hn H31 Hcap Hbo Hsrc Hmod.
  { assert (0 <= R / bs) by (apply Z.div_pos; lia). lia. }
  cbn [copy_from_loop].
  destruct (Z.ltb_spec R bs) as [Hlt | Hge].
  - (* the last round *)
    rewrite (Z.div_small R bs) in * by lia. rewrite Z.add_0_r in *.
    assert (n = 0%nat) by lia. subst n.
    destruct (Z.ltb_spec i (len (bque_nodes q))) as [Hin | Hout].
    + destruct (item_some q i ltac:(lia) H31) as (b & -> & Hptr).
      rewrite Z.gtb_ltb. destruct (Z.ltb_spec bs R); [lia |].
      destruct (block_store_flat q b i 0 buff bo R Hu ltac:(lia) Hptr)
        as (q1 & -> & Hf & Hu1 & Hl1 & Hfate); try lia.
      cbn [copy_from_loop]. do 2 eexists. split; [reflexivity |].
      rewrite Z.add_0_r in Hf. auto.
    + rewrite item_none by lia.
      assert (R = 0) by nia. subst R.
      do 2 eexists. split; [reflexivity |].
      rewrite slice_0, splice_nil. auto.
  - (* a whole block, then the rest *)
    assert (Hq1 : 1 <= R / bs) by (apply Z.div_le_lower_bound; lia).
    assert (Hin : i < len (bque_nodes q)) by nia.
    destruct (item_some q i ltac:(lia) ltac:(lia)) as (b & -> & Hptr).
    assert (Hcurt : (if R >? bs then bs else R) = bs).
    { rewrite Z.gtb_ltb. destruct (Z.ltb_spec bs R); lia. }
    rewrite Hcurt.
    destruct (block_store_flat q b i 0 buff bo bs Hu ltac:(lia) Hptr)
      as (q1 & -> & Hf & Hu1 & Hl1 & Hfate); try lia.
    rewrite add_small by (unfold U32.range in *; lia).
    rewrite sub_small by (rewrite modulus_eq in *; lia).
    pose proof (div_step R Hge) as Hstep.
    destruct (IH (i + 1) q1 (bo + bs) (R - bs)) as (q' & log & Hrun & Hf' & Hu' & Hl' & Hfate');
      try assumption; try (rewrite ?Hl1; lia).
    rewrite Hrun. rewrite div_step, Hl1 by lia.
    replace (i + 1 + (R / bs - 1)) with (i + R / bs) by lia.
    do 2 eexists. split; [reflexivity |].
    split; [| split; [exact Hu' | split; [lia | congruence]]].
    rewrite Hf', Hf, Z.add_0_r.
    pose proof (len_slice buff bo bs Hbo ltac:(lia) ltac:(lia)) as Hd1.
    replace ((i + 1) * bs) with (i * bs + len (slice buff bo bs)) by lia.
    rewrite splice_splice.
    + f_equal. rewrite <- Hd1 at 2. rewrite Hd1.
      rewrite slice_slice by lia. f_equal. lia.
    + lia.
    + rewrite Hd1, len_slice by lia. rewrite (len_flat q Hu). lia.
Qed.

(** the loop of [rbuf_copy_to]: the mirror image, gathering [R] bytes from
    the positions from [i * bs] on into [dst] at [bo] *)
Lemma copy_to_loop_flat (q : bque_ctx) (n : nat) :
  forall (i : Z) (dst : list byte) (bo R : Z),
  uniform bs q -> bs < U32.modulus ->
  0 <= i -> 0 <= R -> Z.of_nat n = R / bs + 1 -> i + R / bs < 2 ^ 31 ->
  i * bs + R <= len (bque_nodes q) * bs ->
  0 <= bo -> bo + R <= len dst -> bo + R < U32.modulus ->
  exists log,
    copy_to_loop n i q bs dst bo R =
      Some (if i + R / bs <? len (bque_nodes q) then RBUF_OK else RBUF_ERR,
            splice dst bo (slice (flat q) (i * bs) R), log).
Proof.
  induction n as [| n IH]; intros i dst bo R Hu Hbs Hi HR Hn H31 Hcap Hbo Hdst Hmod.
  { assert (0 <= R / bs) by (apply Z.div_pos; lia). lia. }
  cbn [copy_to_loop].
  destruct (Z.ltb_spec R bs) as [Hlt | Hge].
  - rewrite (Z.div_small R bs) in * by lia. rewrite Z.add_0_r in *.
    assert (n = 0%nat) by lia. subst n.
    destruct (Z.ltb_spec i (len (bque_nodes q))) as [Hin | Hout].
    + destruct (item_some q i ltac:(lia) H31) as (b & -> & Hptr).
      rewrite Z.gtb_ltb. destruct (Z.ltb_spec bs R); [lia |].
      rewrite (block_load_flat q b i 0 dst bo R Hu ltac:(lia) Hptr) by lia.
      cbn [copy_to_loop]. rewrite Z.add_0_r. eexists. reflexivity.
    + rewrite item_none by lia.
      assert (R = 0) by nia. subst R.
      rewrite slice_0, splice_nil. eexists. reflexivity.
  - assert (Hq1 : 1 <= R / bs) by (apply Z.div_le_lower_bound; lia).
    assert (Hin : i < len (bque_nodes q)) by nia.
    destruct (item_some q i ltac:(lia) ltac:(lia)) as (b & -> & Hptr).
    assert (Hcurt : (if R >? bs then bs else R) = bs).
    { rewrite Z.gtb_ltb. destruct (Z.ltb_spec bs R); lia. }
    rewrite Hcurt.
    rewrite (block_load_flat q b i 0 dst bo bs Hu ltac:(lia) Hptr) by lia.
    rewrite add_small by (unfold U32.range in *; lia).
    rewrite sub_small by (rewrite modulus_eq in *; lia).
    pose proof (div_step R Hge) as Hstep.
    rewrite Z.add_0_r.
    assert (Hd1 : len (slice (flat q) (i * bs) bs) = bs).
    { apply len_slice; try lia. rewrite (len_flat q Hu). lia. }
    destruct (IH (i + 1) (splice dst bo (slice (flat q) (i * bs) bs)) (bo + bs) (R - bs))
      as (log & Hrun); try assumption; try lia.
    { rewrite len_splice by lia. lia. }
    rewrite Hrun. rewrite Hstep.
    replace (i + 1 + (R / bs - 1)) with (i + R / bs) by lia.
    eexists. f_equal. f_equal. f_equal.
    replace (bo + bs) with (bo + len (slice (flat q) (i * bs) bs)) by lia.
    rewrite splice_splice.
    + f_equal. replace ((i + 1) * bs) with (i * bs + bs) by lia.
      rewrite slice_slice; try lia.
      * f_equal. lia.
      * rewrite (len_flat q Hu). lia.
    + lia.
    + rewrite Hd1, len_slice; try lia. rewrite (len_flat q Hu). lia.
Qed.

End Blocks.

(** ** The copy routines on the flat view

    Positions stay within 32 bits and block indices below [2 ^ 31] in what
    follows. *)

Section FlatCopies.

Variable ctx : rbuf_ctx.
Let bs := block_size (conf ctx).
Let held := len (bque_nodes (bque ctx)).

Hypothesis blocks_uniform : uniform bs (bque ctx).
Hypothesis bs_range : 0 < bs < U32.modulus.

Variables offs size : Z.
Hypothesis offs_nonneg : 0 <= offs.
Hypothesis size_nonneg : 0 <= size.
Hypothesis end_range : offs + size < U32.modulus.
Hypothesis end_held : offs + size <= held * bs.
Hypothesis end_index : (offs + size) / bs < 2 ^ 31.

Lemma copy_indices :
  let s := offs / bs in
  let e := (offs + size) / bs in
  0 <= s <= e /\ e <= held /\
  offs = bs * s + offs mod bs /\ 0 <= offs mod bs < bs /\
  offs + size = bs * e + (offs + size) mod bs /\ 0 <= (offs + size) mod bs < bs.
Proof.
  intros s e. repeat split.
  - apply Z.div_pos; lia.
  - apply Z.div_le_mono; lia.
  - unfold e. apply Z.div_le_upper_bound; lia.
  - apply Z.div_mod; lia.
  - apply Z.mod_pos_bound; lia.
  - apply Z.mod_pos_bound; lia.
  - apply Z.div_mod; lia.
  - apply Z.mod_pos_bound; lia.
  - apply Z.mod_pos_bound; lia.
Qed.

(** lines 227-273: the bytes [buff[0 .. size)] replace the positions
    [offs .. offs + size) of the flat view; the result is [RBUF_OK] when the
    block of index [(offs + size) / bs] is held, [RBUF_ERR] when it is not *)
Lemma copy_from_blocks_flat (buff : list byte) :
  size <= len buff ->
  exists ctx' log,
    copy_from_blocks ctx buff offs size (offs + size) =
      Some (if (offs + size) / bs <? held then RBUF_OK else RBUF_ERR, ctx', log) /\
    flat (bque ctx') = splice (flat (bque ctx)) offs (slice buff 0 size) /\
    uniform bs (bque ctx') /\
    len (bque_nodes (bque ctx')) = held /\
    bque_fate (bque ctx') = bque_fate (bque ctx) /\
    cache ctx' = cache ctx /\ conf ctx' = conf ctx.
Proof.
  intros Hsrc.
  destruct copy_indices as ((Hs0 & Hse) & He & Hso & Hsr & Heo & Her).
  cbv zeta in *.
  unfold copy_from_blocks. fold bs.
  destruct (Z.eqb_spec bs 0); [lia |].
  cbv zeta.
  set (s := offs / bs) in *. set (e := (offs + size) / bs) in *.
  destruct (Z.eqb_spec s e) as [Eq | Ne].
  - (* one block *)
    rewrite <- Eq. rewrite <- Eq in Heo, He.
    destruct (Z.ltb_spec s held) as [Hin | Hout].
    + destruct (item_some (bque ctx) s ltac:(unfold held in *; lia) ltac:(lia))
        as (b & -> & Hptr).
      destruct (block_store_flat bs ltac:(lia) (bque ctx) b s (offs mod bs) buff 0 size
                  blocks_uniform ltac:(unfold held in *; lia) Hptr)
        as (q1 & -> & Hf & Hu1 & Hl1 & Hfate); try lia.
      do 2 eexists. split; [reflexivity |].
      cbn [set_bque bque cache conf].
      replace (s * bs + offs mod bs) with offs in Hf by lia.
      repeat split; assumption.
    + rewrite item_none by (unfold held in *; lia).
      assert (size = 0) by nia. subst size.
      do 2 eexists. split; [reflexivity |].
      rewrite slice_0, splice_nil. repeat split; auto.
  - (* several blocks *)
    assert (Hlt : s < e) by lia.
    destruct (item_some (bque ctx) s ltac:(unfold held in *; lia) ltac:(lia))
      as (b & -> & Hptr).
    rewrite !sub_small by (rewrite modulus_eq in *; nia).
    rewrite !add_small by (rewrite modulus_eq in *; lia).
    assert (Hcurt : bs - offs mod bs <= size) by nia.
    destruct (block_store_flat bs ltac:(lia) (bque ctx) b s (offs mod bs) buff 0
                (bs - offs mod bs) blocks_uniform ltac:(unfold held in *; lia) Hptr)
      as (q1 & -> & Hf & Hu1 & Hl1 & Hfate); try lia.
    assert (HR : (size - (bs - offs mod bs)) / bs = e - (s + 1)).
    { replace (size - (bs - offs mod bs)) with (offs + size + (- (s + 1)) * bs) by lia.
      rewrite Z.div_add by lia. fold e. lia. }
    assert (Hcap1 : (s + 1) * bs + (size - (bs - offs mod bs))
                      <= len (bque_nodes q1) * bs).
    { rewrite Hl1. fold held. nia. }
    destruct (copy_from_loop_flat bs ltac:(lia) buff (Z.to_nat (e + 1 - (s + 1)))
                (s + 1) q1 (bs - offs mod bs) (size - (bs - offs mod bs)))
      as (q' & log & Hrun & Hf' & Hu' & Hl' & Hfate');
      try assumption; try lia.
    rewrite Hrun. rewrite HR, Hl1. fold held.
    replace (s + 1 + (e - (s + 1))) with e by lia.
    do 2 eexists. split; [reflexivity |].
    cbn [set_bque bque cache conf].
    split; [| repeat split; try assumption; try congruence; unfold held; lia].
    rewrite Hf', Hf.
    pose proof (len_slice buff 0 (bs - offs mod bs) ltac:(lia) ltac:(lia) ltac:(lia)) as Hd1.
    replace (s * bs + offs mod bs) with offs by lia.
    replace ((s + 1) * bs) with (offs + len (slice buff 0 (bs - offs mod bs))) by lia.
    rewrite splice_splice.
    + f_equal. symmetry. apply slice_split0; lia.
    + lia.
    + rewrite Hd1, len_slice by lia. rewrite (len_flat bs (bque ctx) blocks_uniform).
      fold held. lia.
Qed.

(** lines 321-367 of [rbuf_copy_to], for a range within the logical size:
    the destination receives the positions [offs .. offs + size) of the flat
    view, with the same verdict as the copy-in *)
Lemma copy_to_flat (dst : list byte) :
  offs + size <= buff_size (cache ctx) ->
  size <= len dst ->
  exists log,
    rbuf_copy_to ctx dst offs size =
      Some (if (offs + size) / bs <? held then RBUF_OK else RBUF_ERR, ctx,
            splice dst 0 (slice (flat (bque ctx)) offs size), log).
Proof.
  intros Hin Hdst.
  destruct copy_indices as ((Hs0 & Hse) & He & Hso & Hsr & Heo & Her).
  cbv zeta in *.
  pose proof (len_flat bs (bque ctx) blocks_uniform) as Hlf. fold held in Hlf.
  unfold rbuf_copy_to. fold bs.
  rewrite Z.gtb_ltb. destruct (Z.ltb_spec (buff_size (cache ctx)) offs); [lia |].
  rewrite add_small by (unfold U32.range; lia).
  rewrite Z.gtb_ltb. destruct (Z.ltb_spec (buff_size (cache ctx)) (offs + size)); [lia |].
  destruct (Z.eqb_spec bs 0); [lia |].
  cbv zeta.
  set (s := offs / bs) in *. set (e := (offs + size) / bs) in *.
  destruct (Z.eqb_spec s e) as [Eq | Ne].
  - rewrite <- Eq. rewrite <- Eq in Heo, He.
    destruct (Z.ltb_spec s held) as [Hlt | Hout].
    + destruct (item_some (bque ctx) s ltac:(unfold held in *; lia) ltac:(lia))
        as (b & -> & Hptr).
      rewrite (block_load_flat bs ltac:(lia) (bque ctx) b s (offs mod bs) dst 0 size
                 blocks_uniform ltac:(unfold held in *; lia) Hptr) by lia.
      replace (s * bs + offs mod bs) with offs by lia.
      eexists. reflexivity.
    + rewrite item_none by (unfold held in *; lia).
      assert (size = 0) by nia. subst size.
      rewrite slice_0, splice_nil. eexists. reflexivity.
  - assert (Hlt : s < e) by lia.
    destruct (item_some (bque ctx) s ltac:(unfold held in *; lia) ltac:(lia))
      as (b & -> & Hptr).
    rewrite !sub_small by (rewrite modulus_eq in *; nia).
    rewrite !add_small by (rewrite modulus_eq in *; lia).
    assert (Hcurt : bs - offs mod bs <= size) by nia.
    rewrite (block_load_flat bs ltac:(lia) (bque ctx) b s (offs mod bs) dst 0 (bs - offs mod bs)
               blocks_uniform ltac:(unfold held in *; lia) Hptr) by lia.
    replace (s * bs + offs mod bs) with offs by lia.
    assert (HR : (size - (bs - offs mod bs)) / bs = e - (s + 1)).
    { replace (size - (bs - offs mod bs)) with (offs + size + (- (s + 1)) * bs) by lia.
      rewrite Z.div_add by lia. fold e. lia. }
    assert (Hd1 : len (slice (flat (bque ctx)) offs (bs - offs mod bs)) = bs - offs mod bs).
    { apply len_slice; lia. }
    assert (Hcap1 : (s + 1) * bs + (size - (bs - offs mod bs))
                      <= len (bque_nodes (bque ctx)) * bs).
    { fold held. nia. }
    assert (Hdst1 : bs - offs mod bs + (size - (bs - offs mod bs))
                      <= len (splice dst 0 (slice (flat (bque ctx)) offs (bs - offs mod bs)))).
    { rewrite len_splice by lia. lia. }
    destruct (copy_to_loop_flat bs ltac:(lia) (bque ctx) (Z.to_nat (e + 1 - (s + 1)))
                (s + 1) (splice dst 0 (slice (flat (bque ctx)) offs (bs - offs mod bs)))
                (bs - offs mod bs) (size - (bs - offs mod bs)))
      as (log & Hrun); try assumption; try lia.
    rewrite Hrun. rewrite HR. fold held.
    replace (s + 1 + (e - (s + 1))) with e by lia.
    eexists. f_equal. f_equal. f_equal.
    replace (bs - offs mod bs) with (0 + len (slice (flat (bque ctx)) offs (bs - offs mod bs)))
      at 2 by lia.
    rewrite splice_splice.
    + f_equal. replace ((s + 1) * bs) with (offs + (bs - offs mod bs)) by lia.
      rewrite slice_slice by lia. f_equal. lia.
    + lia.
    + rewrite Hd1, len_slice by lia. lia.
Qed.

End FlatCopies.

(** ** [rbuf_copy_to] *)

(** reads that start or end past the logical size, the range's end
    [offs + size] being a 32-bit value: the call fails and changes nothing *)
Lemma copy_to_past_the_end (ctx : rbuf_ctx) (buff : list byte) (offs size : Z) :
  (offs > buff_size (cache ctx) ->
   rbuf_copy_to ctx buff offs size = Some (RBUF_ERR_BAD_OFFS, ctx, buff, [])) /\
  (offs <= buff_size (cache ctx) -> U32.range (offs + size) ->
   offs + size > buff_size (cache ctx) ->
   rbuf_copy_to ctx buff offs size = Some (RBUF_ERR_BAD_SIZE, ctx, buff, [])).
Proof.
  unfold rbuf_copy_to. split.
  - intros H. rewrite Z.gtb_ltb.
    destruct (Z.ltb_spec (buff_size (cache ctx)) offs); [reflexivity | lia].
  - intros H1 Hr H2. rewrite Z.gtb_ltb.
    destruct (Z.ltb_spec (buff_size (cache ctx)) offs); [lia |].
    unfold U32.add. rewrite wrap_small by exact Hr.
    rewrite Z.gtb_ltb.
    destruct (Z.ltb_spec (buff_size (cache ctx)) (offs + size)); [reflexivity | lia].
Qed.

Lemma abcdef_6_wf : wf abcdef_6.
Proof.
  constructor; unfold U32.range; cbn; rewrite ?modulus_eq; try lia.
  repeat constructor.
Qed.

(** the buffer of the spec's scenario is reached by two appends *)
Lemma abcdef_6_reached :
  exists log1 log2,
    rbuf_append (fresh_4_16 []) ["A"; "B"]%byte 2 = Some (RBUF_OK, ab_2, log1) /\
    rbuf_append ab_2 ["C"; "D"; "E"; "F"]%byte 4 = Some (RBUF_OK, abcdef_6, log2).
Proof. do 2 eexists. split; reflexivity. Qed.

(** the rest of the scenario: four bytes read at offset 1 are "BCDE", and a
    read at offset 10 is refused with [RBUF_ERR_BAD_OFFS] *)
Lemma abcdef_6_read :
  (exists log,
     rbuf_copy_to abcdef_6 (repeat x00 4) 1 4 =
       Some (RBUF_OK, abcdef_6, ["B"; "C"; "D"; "E"]%byte, log)) /\
  rbuf_copy_to abcdef_6 [x00] 10 1 = Some (RBUF_ERR_BAD_OFFS, abcdef_6, [x00], []).
Proof. split; [eexists |]; reflexivity. Qed.

(** C3, where the code departs from it: on the buffer "ABCDEF" (logical size
    6, block size 4) a read of 4294967293 bytes at offset 5 reaches far past
    the logical size, yet [offs + size] wraps to 2, both checks pass, and the
    call returns [RBUF_OK] after copying the three bytes at offsets 5, 6, 7,
    two of them beyond the logical end.  [a :: b :: c :: rest] is any
    destination of three bytes or more. *)
Theorem copy_to_wrapped_range_accepted (a b c : byte) (rest : list byte) :
  5 <= buff_size (cache abcdef_6) /\
  5 + 4294967293 > buff_size (cache abcdef_6) /\
  rbuf_copy_to abcdef_6 (a :: b :: c :: rest) 5 4294967293 =
    Some (RBUF_OK, abcdef_6, "F"%byte :: x00 :: x00 :: rest,
          [ {| sc_block := 1; sc_block_offs := 1; sc_buff_offs := 0; sc_size := 3 |} ]).
Proof.
  split; [cbn; lia |]. split; [cbn; lia |].
  unfold rbuf_copy_to.
  change (block_size (conf abcdef_6)) with 4.
  change (buff_size (cache abcdef_6)) with 6.
  change (U32.add 5 4294967293) with 2.
  change (5 >? 6) with false. change (2 >? 6) with false.
  change (4 =? 0) with false. change (5 / 4 =? 2 / 4) with false.
  cbv iota zeta.
  change (bque_item (bque abcdef_6) (U32.to_s32 (5 / 4)))
    with (Some {| ptr := 1; bsize := 4 |}).
  change (5 mod 4) with 1. change (U32.sub 4 1) with 3.
  change (Z.to_nat (U32.add (2 / 4) 1 - U32.add (5 / 4) 1)) with 0%nat.
  unfold block_load.
  change (nth_error (bque_nodes (bque abcdef_6)) (ptr {| ptr := 1; bsize := 4 |}))
    with (Some ["E"; "F"; x00; x00]%byte).
  cbv iota.
  pose proof (memcpy_app [] [a; b; c] rest ["E"%byte] ["F"%byte; x00; x00] []
                eq_refl) as Hcp.
  cbn [app len length Z.of_nat Pos.of_succ_nat Pos.succ] in Hcp.
  rewrite Hcp. reflexivity.
Qed.

(** ** Zero-length copies on an empty buffer *)

(** C9 as stated fails: [stale_1] is what a growth that failed at its second
    block leaves behind (block count 0, logical size 0, one block still in the
    store), and on it both zero-length copies return [RBUF_OK]. *)
Lemma empty_copy_stale_counterexample :
  rbuf_resize (fresh_4_16 [BQUE_OK; BQUE_ERR_NO_MEM]) 8
    = Some (RBUF_ERR_NO_MEM, stale_1) /\
  block_num (cache stale_1) = 0 /\ buff_size (cache stale_1) = 0 /\
  rbuf_copy_to stale_1 [] 0 0 =
    Some (RBUF_OK, stale_1, [],
          [ {| sc_block := 0; sc_block_offs := 0; sc_buff_offs := 0; sc_size := 0 |} ]) /\
  rbuf_copy_from stale_1 [] 0 0 =
    Some (RBUF_OK, stale_1,
          [ {| sc_block := 0; sc_block_offs := 0; sc_buff_offs := 0; sc_size := 0 |} ]).
Proof. repeat split. Qed.

(** C9 (amended): on an empty buffer whose block store holds no block, the
    zero-length [rbuf_copy_to (ctx, buff, 0, 0)] passes both range checks and
    returns [RBUF_ERR], because the block of index 0 is requested and does
    not exist; [rbuf_copy_from (ctx, buff, 0, 0)] returns [RBUF_ERR] too. *)
Theorem empty_copy_fails (ctx : rbuf_ctx) (buff : list byte) :
  wf ctx -> bque_nodes (bque ctx) = [] ->
  block_num (cache ctx) = 0 /\ buff_size (cache ctx) = 0 /\
  rbuf_copy_to ctx buff 0 0 = Some (RBUF_ERR, ctx, buff, []) /\
  rbuf_copy_from ctx buff 0 0 = Some (RBUF_ERR, ctx, []).
Proof.
  intros Hwf Hnil. destruct Hwf.
  rewrite Hnil in wf_held0. change (len (@nil (list byte))) with 0 in wf_held0.
  assert (Hn : block_num (cache ctx) = 0) by lia.
  assert (Hcap : buff_cap (cache ctx) = 0) by (rewrite wf_buff_cap0, Hn; lia).
  assert (Hsz : buff_size (cache ctx) = 0) by lia.
  split; [exact Hn |]. split; [exact Hsz |].
  assert (Hbs : (block_size (conf ctx) =? 0) = false) by (apply Z.eqb_neq; lia).
  assert (Hitem : bque_item (bque ctx) (U32.to_s32 (0 / block_size (conf ctx))) = None).
  { rewrite Z.div_0_l by lia. unfold bque_item. rewrite Hnil. reflexivity. }
  split.
  - unfold rbuf_copy_to. rewrite Hsz, Hbs.
    change (U32.add 0 0) with 0. change (0 >? 0) with false. cbv iota zeta.
    rewrite Z.eqb_refl, Hitem. reflexivity.
  - unfold rbuf_copy_from, copy_from_blocks. rewrite Hcap, Hbs.
    change (U32.add 0 0) with 0. change (0 >? 0) with false. cbv iota zeta.
    rewrite Z.eqb_refl, Hitem. reflexivity.
Qed.

Lemma empty_copy_fails_witness :
  block_num (cache (fresh_4_16 [])) = 0 /\ buff_size (cache (fresh_4_16 [])) = 0 /\
  rbuf_copy_to (fresh_4_16 []) [] 0 0 = Some (RBUF_ERR, fresh_4_16 [], [], []) /\
  rbuf_copy_from (fresh_4_16 []) [] 0 0 = Some (RBUF_ERR, fresh_4_16 [], []).
Proof.
  apply (empty_copy_fails (fresh_4_16 []) []); [apply fresh_wf | reflexivity].
Defined.

(** ** [rbuf_copy_from]: the implicit resize *)

(** when [offs + size] is a 32-bit value, the implicit resize is made exactly
    when it exceeds the cached capacity; a failing resize is returned as it
    is, before any copy *)
Lemma copy_from_implicit_resize (ctx : rbuf_ctx) (buff : list byte) (offs size : Z) :
  U32.range (offs + size) ->
  (offs + size <= buff_cap (cache ctx) ->
   rbuf_copy_from ctx buff offs size
     = copy_from_blocks ctx buff offs size (offs + size)) /\
  (offs + size > buff_cap (cache ctx) ->
   (forall ctx1, rbuf_resize ctx (offs + size) = Some (RBUF_OK, ctx1) ->
      rbuf_copy_from ctx buff offs size
        = copy_from_blocks ctx1 buff offs size (offs + size)) /\
   (forall r ctx1, rbuf_resize ctx (offs + size) = Some (r, ctx1) -> r <> RBUF_OK ->
      rbuf_copy_from ctx buff offs size = Some (r, ctx1, []))).
Proof.
  intros Hr. unfold rbuf_copy_from, U32.add. rewrite wrap_small by exact Hr.
  rewrite Z.gtb_ltb.
  destruct (Z.ltb_spec (buff_cap (cache ctx)) (offs + size)) as [Hlt | Hge].
  - split; [lia |]. intros _. split.
    + intros ctx1 H. rewrite H. reflexivity.
    + intros r ctx1 H Hne. rewrite H. destruct r; [contradiction | | | |]; reflexivity.
  - split; [reflexivity | lia].
Qed.

(** C6, where the code departs from it: on the buffer "ABCDEF" (capacity 8)
    a copy-in of 4294967293 bytes at offset 5 needs far more than the
    capacity, yet [offs + size] wraps to 2: no resize is made (the cached
    fields keep their values), three source bytes are stored in block 1 and
    the call returns [RBUF_OK].  [a :: b :: c :: rest] is any source of three
    bytes or more. *)
Theorem copy_from_wrapped_size_no_resize (a b c : byte) (rest : list byte) :
  5 + 4294967293 > buff_cap (cache abcdef_6) /\
  exists ctx',
    rbuf_copy_from abcdef_6 (a :: b :: c :: rest) 5 4294967293 =
      Some (RBUF_OK, ctx',
            [ {| sc_block := 1; sc_block_offs := 1; sc_buff_offs := 0; sc_size := 3 |} ]) /\
    cache ctx' = cache abcdef_6 /\
    bque_nodes (bque ctx') = [["A"; "B"; "C"; "D"]%byte; ["E"%byte; a; b; c]].
Proof.
  split; [cbn; lia |].
  unfold rbuf_copy_from.
  change (U32.add 5 4294967293) with 2.
  change (buff_cap (cache abcdef_6)) with 8. change (2 >? 8) with false.
  cbv iota. unfold copy_from_blocks.
  change (block_size (conf abcdef_6)) with 4.
  change (4 =? 0) with false. change (5 / 4 =? 2 / 4) with false.
  cbv iota zeta.
  change (bque_item (bque abcdef_6) (U32.to_s32 (5 / 4)))
    with (Some {| ptr := 1; bsize := 4 |}).
  change (5 mod 4) with 1. change (U32.sub 4 1) with 3.
  change (Z.to_nat (U32.add (2 / 4) 1 - U32.add (5 / 4) 1)) with 0%nat.
  unfold block_store.
  change (nth_error (bque_nodes (bque abcdef_6)) (ptr {| ptr := 1; bsize := 4 |}))
    with (Some ["E"; "F"; x00; x00]%byte).
  cbv iota.
  pose proof (memcpy_app ["E"%byte] ["F"%byte; x00; x00] [] [] [a; b; c] rest
                eq_refl) as Hcp.
  cbn [app len length Z.of_nat Pos.of_succ_nat Pos.succ] in Hcp.
  rewrite Hcp. cbn [copy_from_loop].
  eexists. split; [reflexivity |]. split; reflexivity.
Qed.

(** ** [rbuf_copy_from]: defined results and untouched fields *)

Lemma item_inv (q : bque_ctx) (x : Z) (b : bque_buff) :
  bque_item q x = Some b -> 0 <= x < len (bque_nodes q) /\ ptr b = Z.to_nat x.
Proof.
  unfold bque_item. zbool; try discriminate.
  intros Hb. inversion Hb; subst. cbn [ptr]. split; [lia | reflexivity].
Qed.

Lemma copy_from_loop_defined (bs : Z) (buff : list byte) (n : nat) :
  forall (i : Z) (q : bque_ctx) (bo R : Z),
  uniform bs q -> 0 < bs < U32.modulus ->
  0 <= R -> 0 <= bo -> bo + R <= len buff -> bo + R < U32.modulus ->
  exists r q' log, copy_from_loop n i q bs buff bo R = Some (r, q', log).
Proof.
  induction n as [| n IH]; intros i q bo R Hu Hbs HR Hbo Hsrc Hmod;
    cbn [copy_from_loop]; [eauto |].
  destruct (bque_item q (U32.to_s32 i)) as [b |] eqn:Hitem; [| eauto].
  apply item_inv in Hitem. destruct Hitem as [Hx Hptr].
  set (curt := if R >? bs then bs else R).
  assert (Hc : 0 <= curt <= bs /\ curt <= R).
  { unfold curt. rewrite Z.gtb_ltb. destruct (Z.ltb_spec bs R); lia. }
  destruct (block_store_flat bs ltac:(lia) q b (U32.to_s32 i) 0 buff bo curt Hu Hx Hptr)
    as (q1 & -> & _ & Hu1 & _ & _); try lia.
  rewrite add_small by (unfold U32.range; lia).
  rewrite sub_small by (unfold U32.range; lia).
  destruct (IH (i + 1) q1 (bo + curt) (R - curt)) as (r & q' & log & ->);
    try assumption; try lia.
  eauto.
Qed.

(** the copy into the blocks has a defined result whenever the source holds
    [size] bytes, and it leaves cache and configuration alone *)
Lemma copy_from_blocks_defined (ctx : rbuf_ctx) (buff : list byte) (offs size : Z) :
  uniform (block_size (conf ctx)) (bque ctx) ->
  0 < block_size (conf ctx) < U32.modulus ->
  0 <= offs -> 0 <= size -> offs + size < U32.modulus -> size <= len buff ->
  exists r ctx' log,
    copy_from_blocks ctx buff offs size (offs + size) = Some (r, ctx', log) /\
    cache ctx' = cache ctx /\ conf ctx' = conf ctx.
Proof.
  intros Hu Hbs Ho Hs Hend Hsrc. unfold copy_from_blocks.
  set (bs := block_size (conf ctx)) in *.
  destruct (Z.eqb_spec bs 0); [lia |]. cbv zeta.
  pose proof (Z.div_mod offs bs ltac:(lia)) as Hso.
  pose proof (Z.mod_pos_bound offs bs ltac:(lia)) as Hsr.
  pose proof (Z.div_mod (offs + size) bs ltac:(lia)) as Heo.
  pose proof (Z.mod_pos_bound (offs + size) bs ltac:(lia)) as Her.
  assert (Hse : offs / bs <= (offs + size) / bs) by (apply Z.div_le_mono; lia).
  destruct (Z.eqb_spec (offs / bs) ((offs + size) / bs)) as [Eq | Ne].
  - destruct (bque_item (bque ctx) _) as [b |] eqn:Hitem; [| eauto 6].
    apply item_inv in Hitem. destruct Hitem as [Hx Hptr].
    rewrite <- Eq in Heo.
    destruct (block_store_flat bs ltac:(lia) (bque ctx) b _ (offs mod bs) buff 0 size
                Hu Hx Hptr) as (q1 & -> & _); try lia.
    eauto 6.
  - destruct (bque_item (bque ctx) _) as [b |] eqn:Hitem; [| eauto 6].
    apply item_inv in Hitem. destruct Hitem as [Hx Hptr].
    rewrite !sub_small by (rewrite modulus_eq in *; nia).
    assert (Hcurt : bs - offs mod bs <= size) by nia.
    destruct (block_store_flat bs ltac:(lia) (bque ctx) b _ (offs mod bs) buff 0
                (bs - offs mod bs) Hu Hx Hptr) as (q1 & -> & _ & Hu1 & _); try lia.
    destruct (copy_from_loop_defined bs buff
                (Z.to_nat (U32.add ((offs + size) / bs) 1 - U32.add (offs / bs) 1))
                (U32.add (offs / bs) 1) q1 (bs - offs mod bs) (size - (bs - offs mod bs)))
      as (r & q' & log & ->); try assumption; try lia.
    eauto 6.
Qed.

(** a copy-in that ends within the current capacity has a defined result
    and leaves the cached logical size, block count, capacity and last-block
    fill as they were; a write into spare capacity past the logical size does
    not extend it, and every later read whose range ends past the logical
    size, at an end that fits 32 bits, is refused and leaves the destination
    alone *)
Lemma copy_from_frame (ctx : rbuf_ctx) (buff : list byte) (offs size : Z) :
  wf ctx -> 0 <= offs -> 0 <= size -> size <= len buff ->
  offs + size <= buff_cap (cache ctx) ->
  exists r ctx' log,
    rbuf_copy_from ctx buff offs size = Some (r, ctx', log) /\
    cache ctx' = cache ctx /\
    forall (dst : list byte) (o l : Z),
      0 <= o -> 0 <= l -> o + l < U32.modulus -> buff_size (cache ctx) < o + l ->
      exists e, (e = RBUF_ERR_BAD_OFFS \/ e = RBUF_ERR_BAD_SIZE) /\
                rbuf_copy_to ctx' dst o l = Some (e, ctx', dst, []).
Proof.
  intros Hwf Ho Hs Hsrc Hcap. pose proof Hwf as Hwf0. destruct Hwf.
  destruct (copy_from_implicit_resize ctx buff offs size) as [Hno _].
  { unfold U32.range. lia. }
  rewrite (Hno Hcap).
  destruct (copy_from_blocks_defined ctx buff offs size) as (r & ctx' & log & -> & Hc & _);
    try assumption; try lia.
  exists r, ctx', log. split; [reflexivity |]. split; [exact Hc |].
  intros dst o l Ho' Hl Hol Hpast. rewrite <- Hc in Hpast.
  destruct (copy_to_past_the_end ctx' dst o l) as [Hoffs Hsize].
  destruct (Z.ltb_spec (buff_size (cache ctx')) o).
  - exists RBUF_ERR_BAD_OFFS. split; [auto | apply Hoffs; lia].
  - exists RBUF_ERR_BAD_SIZE. split; [auto |]. apply Hsize; unfold U32.range; lia.
Qed.

(** C8, where the code departs from it: on the buffer "ABCDEF" (logical size
    6, capacity 8) the copy-in of "X" at offset 6 lies within the capacity and
    leaves every cached field as it was, the logical size still being 6; but
    the byte written does not stay unreadable: a read of 4294967293 bytes at
    offset 5, whose end wraps to 2, returns [RBUF_OK] and delivers the bytes
    at offsets 5, 6, 7, "X" among them. *)
Theorem spare_byte_read_back (a b c : byte) (rest : list byte) :
  6 + 1 <= buff_cap (cache abcdef_6) /\
  rbuf_copy_from abcdef_6 ["X"%byte] 6 1 =
    Some (RBUF_OK, abcdefx_6,
          [ {| sc_block := 1; sc_block_offs := 2; sc_buff_offs := 0; sc_size := 1 |} ]) /\
  cache abcdefx_6 = cache abcdef_6 /\
  buff_size (cache abcdefx_6) = 6 /\
  rbuf_copy_to abcdefx_6 (a :: b :: c :: rest) 5 4294967293 =
    Some (RBUF_OK, abcdefx_6, "F"%byte :: "X"%byte :: x00 :: rest,
          [ {| sc_block := 1; sc_block_offs := 1; sc_buff_offs := 0; sc_size := 3 |} ]).
Proof.
  split; [cbn; lia |]. split; [reflexivity |]. split; [reflexivity |].
  split; [reflexivity |].
  unfold rbuf_copy_to.
  change (block_size (conf abcdefx_6)) with 4.
  change (buff_size (cache abcdefx_6)) with 6.
  change (U32.add 5 4294967293) with 2.
  change (5 >? 6) with false. change (2 >? 6) with false.
  change (4 =? 0) with false. change (5 / 4 =? 2 / 4) with false.
  cbv iota zeta.
  change (bque_item (bque abcdefx_6) (U32.to_s32 (5 / 4)))
    with (Some {| ptr := 1; bsize := 4 |}).
  change (5 mod 4) with 1. change (U32.sub 4 1) with 3.
  change (Z.to_nat (U32.add (2 / 4) 1 - U32.add (5 / 4) 1)) with 0%nat.
  unfold block_load.
  change (nth_error (bque_nodes (bque abcdefx_6)) (ptr {| ptr := 1; bsize := 4 |}))
    with (Some ["E"; "F"; "X"; x00]%byte).
  cbv iota.
  pose proof (memcpy_app [] [a; b; c] rest ["E"%byte] ["F"%byte; "X"%byte; x00] []
                eq_refl) as Hcp.
  cbn [app len length Z.of_nat Pos.of_succ_nat Pos.succ] in Hcp.
  rewrite Hcp. reflexivity.
Qed.

(** ** A copy across one block boundary *)

Lemma copy_from_blocks_500_40 (ctx : rbuf_ctx) (buff : list byte) :
  block_size (conf ctx) = 512 -> uniform 512 (bque ctx) ->
  2 <= len (bque_nodes (bque ctx)) -> 40 <= len buff ->
  exists ctx',
    copy_from_blocks ctx buff 500 40 540 = Some (RBUF_OK, ctx', boundary_split) /\
    flat (bque ctx') = splice (flat (bque ctx)) 500 (slice buff 0 40) /\
    cache ctx' = cache ctx.
Proof.
  intros Hbs Hu Hheld Hsrc.
  assert (Hlog : exists c, copy_from_blocks ctx buff 500 40 540
                           = Some (RBUF_OK, c, boundary_split)).
  { unfold copy_from_blocks. rewrite Hbs.
    change (512 =? 0) with false. change (500 / 512) with 0. change (540 / 512) with 1.
    change (0 =? 1) with false. cbv iota zeta.
    destruct (item_some (bque ctx) 0 ltac:(lia) ltac:(lia)) as (b & -> & Hptr).
    change (500 mod 512) with 500. change (U32.sub 512 500) with 12.
    destruct (block_store_flat 512 ltac:(lia) (bque ctx) b 0 500 buff 0 12 Hu
                ltac:(lia) Hptr) as (q1 & -> & _ & Hu1 & Hl1 & _); try lia.
    change (U32.sub 40 12) with 28.
    change (Z.to_nat (U32.add 1 1 - U32.add 0 1)) with 1%nat.
    change (U32.add 0 1) with 1. cbn [copy_from_loop].
    destruct (item_some q1 1 ltac:(lia) ltac:(lia)) as (b1 & -> & Hptr1).
    change (28 >? 512) with false. cbv iota.
    destruct (block_store_flat 512 ltac:(lia) q1 b1 1 0 buff 12 28 Hu1
                ltac:(lia) Hptr1) as (q2 & -> & _); try lia.
    eexists. reflexivity. }
  destruct Hlog as (c & Hrun).
  destruct (copy_from_blocks_flat ctx ltac:(rewrite Hbs; exact Hu)
              ltac:(rewrite Hbs, modulus_eq; lia) 500 40 ltac:(lia) ltac:(lia)
              ltac:(rewrite modulus_eq; lia) ltac:(rewrite Hbs; lia)
              ltac:(rewrite Hbs; change (_ / 512) with 1; lia) buff Hsrc)
    as (c' & log & Hrun' & Hflat & _ & _ & _ & Hcache & _).
  change (500 + 40) with 540 in Hrun'. rewrite Hrun in Hrun'.
  inversion Hrun'; subst c' log. exists c. auto.
Qed.

(** C7: with blocks of 512 bytes, a copy-in and a copy-out of 40 bytes at
    offset 500 are made of exactly two sub-copies, 12 bytes at offset 500 of
    block 0 and then 28 bytes at offset 0 of block 1, taken from (stored to)
    the external buffer at offsets 0 and 12. *)
Theorem boundary_copy_splits (ctx : rbuf_ctx) (buff dst : list byte) :
  wf ctx -> block_size (conf ctx) = 512 -> 40 <= len buff -> 40 <= len dst ->
  (540 <= buff_cap (cache ctx) \/
   (540 <= size_max (conf ctx) /\
    grants (bque ctx) (Z.to_nat (2 - block_num (cache ctx)))) ->
   exists ctx',
     rbuf_copy_from ctx buff 500 40 = Some (RBUF_OK, ctx', boundary_split) /\
     (540 <= buff_cap (cache ctx) ->
      flat (bque ctx') = splice (flat (bque ctx)) 500 (slice buff 0 40))) /\
  (540 <= buff_size (cache ctx) ->
   rbuf_copy_to ctx dst 500 40 =
     Some (RBUF_OK, ctx, splice dst 0 (slice (flat (bque ctx)) 500 40), boundary_split)).
Proof.
  intros Hwf Hbs Hsrc Hdst. pose proof Hwf as Hwf0. destruct Hwf.
  rewrite Hbs in *. split.
  - intros Hroom. unfold rbuf_copy_from. change (U32.add 500 40) with 540.
    rewrite Z.gtb_ltb.
    destruct (Z.ltb_spec (buff_cap (cache ctx)) 540) as [Hsmall | Hlarge].
    + destruct Hroom as [Hc | [Hmax Hg]]; [lia |].
      destruct (resize_succeeds ctx 540 Hwf0 ltac:(unfold U32.range; rewrite modulus_eq; lia)
                  Hmax) as (ctx1 & -> & Hconf & Hn & _ & Hheld & Hu).
      { rewrite Hbs. exact Hg. }
      rewrite Hbs in Hheld, Hu. change (blocks_for 512 540) with 2 in Hheld.
      destruct (copy_from_blocks_500_40 ctx1 buff) as (ctx' & -> & _);
        try assumption; try (rewrite Hconf; assumption).
      exists ctx'. split; [reflexivity | lia].
    + destruct (copy_from_blocks_500_40 ctx buff) as (ctx' & -> & Hflat & _);
        try assumption; try lia.
      exists ctx'. split; [reflexivity | auto].
  - intros Hsize.
    assert (Hheld : 2 <= len (bque_nodes (bque ctx))) by lia.
    destruct (copy_to_flat ctx ltac:(rewrite Hbs; assumption)
                ltac:(rewrite Hbs, modulus_eq; lia) 500 40 ltac:(lia) ltac:(lia)
                ltac:(rewrite modulus_eq; lia) ltac:(rewrite Hbs; lia)
                ltac:(rewrite Hbs; change (_ / 512) with 1; lia) dst
                ltac:(lia) Hdst) as (log & Hrun).
    rewrite Hbs in Hrun. change ((500 + 40) / 512) with 1 in Hrun.
    destruct (Z.ltb_spec 1 (len (bque_nodes (bque ctx)))); [| lia].
    rewrite Hrun. do 3 f_equal.
    (* the calls made *)
    unfold rbuf_copy_to in Hrun. rewrite Hbs in Hrun.
    change (U32.add 500 40) with 540 in Hrun.
    rewrite !Z.gtb_ltb in Hrun.
    destruct (Z.ltb_spec (buff_size (cache ctx)) 500); [lia |].
    destruct (Z.ltb_spec (buff_size (cache ctx)) 540); [lia |].
    change (512 =? 0) with false in Hrun. change (500 / 512) with 0 in Hrun.
    change (540 / 512) with 1 in Hrun. change (0 =? 1) with false in Hrun.
    cbv iota zeta in Hrun.
    destruct (item_some (bque ctx) 0 ltac:(lia) ltac:(lia)) as (b & Hb & Hptr).
    rewrite Hb in Hrun.
    change (500 mod 512) with 500 in Hrun. change (U32.sub 512 500) with 12 in Hrun.
    rewrite (block_load_flat 512 ltac:(lia) (bque ctx) b 0 500 dst 0 12 wf_blocks0
               ltac:(lia) Hptr) in Hrun by lia.
    change (U32.sub 40 12) with 28 in Hrun.
    change (Z.to_nat (U32.add 1 1 - U32.add 0 1)) with 1%nat in Hrun.
    change (U32.add 0 1) with 1 in Hrun. cbn [copy_to_loop] in Hrun.
    destruct (item_some (bque ctx) 1 ltac:(lia) ltac:(lia)) as (b1 & Hb1 & Hptr1).
    rewrite Hb1 in Hrun. change (28 >? 512) with false in Hrun. cbv iota in Hrun.
    rewrite (block_load_flat 512 ltac:(lia) (bque ctx) b1 1 0 _ 12 28 wf_blocks0
               ltac:(lia) Hptr1) in Hrun by (rewrite ?len_splice; rewrite ?len_slice;
                 rewrite ?(len_flat 512 (bque ctx) wf_blocks0); lia).
    inversion Hrun. reflexivity.
Qed.

Lemma default_540_wf : wf default_540.
Proof.
  constructor;
    unfold U32.range, default_540, RBUF_DEF_BLOCK_SIZE, RBUF_DEF_SIZE_MAX;
    fields; rewrite ?modulus_eq; try lia.
  - unfold len. cbn [length]. lia.
  - repeat constructor; apply len_repeat.
Qed.

Lemma boundary_copy_splits_witness :
  (exists ctx',
     rbuf_copy_from default_540 (repeat x41 40) 500 40
       = Some (RBUF_OK, ctx', boundary_split) /\
     (540 <= buff_cap (cache default_540) ->
      flat (bque ctx')
        = splice (flat (bque default_540)) 500 (slice (repeat x41 40) 0 40))) /\
  rbuf_copy_to default_540 (repeat x00 40) 500 40 =
    Some (RBUF_OK, default_540,
          splice (repeat x00 40) 0 (slice (flat (bque default_540)) 500 40),
          boundary_split).
Proof.
  destruct (boundary_copy_splits default_540 (repeat x41 40) (repeat x00 40))
    as [Hin Hout];
    [apply default_540_wf | reflexivity | rewrite len_repeat; lia
    | rewrite len_repeat; lia |].
  split; [apply Hin; left; cbn; lia | apply Hout; cbn; lia].
Defined.

(** ** Round trips *)

(** a copy-in within the logical size followed by the copy-out of the same
    range: the destination receives the bytes written; both calls return
    [RBUF_OK] when the block of index [(offs + size) / block_size] is held
    and [RBUF_ERR] when it is not, that is, when the range ends where the
    last held block ends *)
Lemma round_trip_flat (ctx : rbuf_ctx) (S dst : list byte) (offs size : Z) :
  wf ctx -> 0 <= offs -> 0 <= size ->
  offs + size <= buff_size (cache ctx) ->
  len S = size -> len dst = size ->
  (offs + size) / block_size (conf ctx) < 2 ^ 31 ->
  let verdict :=
    if (offs + size) / block_size (conf ctx) <? len (bque_nodes (bque ctx))
    then RBUF_OK else RBUF_ERR in
  exists ctx' log1 log2,
    rbuf_copy_from ctx S offs size = Some (verdict, ctx', log1) /\
    rbuf_copy_to ctx' dst offs size = Some (verdict, ctx', S, log2).
Proof.
  intros Hwf Ho Hs Hin HS Hdst H31 verdict. destruct Hwf.
  set (bs := block_size (conf ctx)) in *.
  assert (Hheld : offs + size <= len (bque_nodes (bque ctx)) * bs) by nia.
  destruct (copy_from_implicit_resize ctx S offs size) as [Hno _].
  { unfold U32.range. lia. }
  rewrite (Hno ltac:(lia)).
  destruct (copy_from_blocks_flat ctx wf_blocks0 wf_block_size0 offs size Ho Hs
              ltac:(lia) Hheld H31 S ltac:(lia))
    as (ctx' & log1 & -> & Hflat & Hu' & Hl' & _ & Hcache & Hconf).
  fold bs. fold verdict.
  exists ctx', log1.
  rewrite <- HS in Hflat. rewrite slice_all in Hflat.
  destruct (copy_to_flat ctx') with (offs := offs) (size := size) (dst := dst)
    as (log2 & Hrun); rewrite ?Hconf, ?Hcache, ?Hl'; fold bs; try assumption; try lia.
  exists log2. split; [reflexivity |].
  rewrite Hrun. rewrite Hconf, Hl'. fold bs. fold verdict.
  do 3 f_equal. rewrite Hflat. rewrite <- HS.
  rewrite slice_splice.
  - apply splice_all. lia.
  - lia.
  - rewrite (len_flat bs (bque ctx) wf_blocks0). lia.
Qed.

(** the round trip of the spec holds for every range that ends before the
    end of the last held block *)
Lemma round_trip (ctx : rbuf_ctx) (S dst : list byte) (offs size : Z) :
  wf ctx -> 0 <= offs -> 0 <= size ->
  offs + size <= buff_size (cache ctx) ->
  len S = size -> len dst = size ->
  (offs + size) / block_size (conf ctx) < 2 ^ 31 ->
  (offs + size) / block_size (conf ctx) < len (bque_nodes (bque ctx)) ->
  exists ctx' log1 log2,
    rbuf_copy_from ctx S offs size = Some (RBUF_OK, ctx', log1) /\
    rbuf_copy_to ctx' dst offs size = Some (RBUF_OK, ctx', S, log2).
Proof.
  intros Hwf Ho Hs Hin HS Hdst H31 Hheld.
  destruct (round_trip_flat ctx S dst offs size Hwf Ho Hs Hin HS Hdst H31)
    as (ctx' & log1 & log2 & H1 & H2).
  destruct (Z.ltb_spec ((offs + size) / block_size (conf ctx))
              (len (bque_nodes (bque ctx)))); [| lia].
  eauto.
Qed.


(** C2, where the code departs from it: a buffer of block size 4 resized to
    4 bytes, the copy-in of "ABCD" at offset 0 and the copy-out of 4 bytes at
    offset 0.  Both calls move the bytes and then return [RBUF_ERR]: their
    loop asks for block 1, which does not exist. *)
Theorem round_trip_full_block_fails :
  rbuf_resize (fresh_4_16 []) 4 = Some (RBUF_OK, resized_4) /\
  rbuf_copy_from resized_4 ["A"; "B"; "C"; "D"]%byte 0 4 =
    Some (RBUF_ERR, abcd_4,
          [ {| sc_block := 0; sc_block_offs := 0; sc_buff_offs := 0; sc_size := 4 |} ]) /\
  rbuf_copy_to abcd_4 (repeat x00 4) 0 4 =
    Some (RBUF_ERR, abcd_4, ["A"; "B"; "C"; "D"]%byte,
          [ {| sc_block := 0; sc_block_offs := 0; sc_buff_offs := 0; sc_size := 4 |} ]).
Proof. repeat split. Qed.

(** the same with the default configuration: an append of one full block of
    512 bytes to a new buffer returns [RBUF_ERR] *)
Lemma append_full_block_fails (ctx : rbuf_ctx) (S : list byte) :
  rbuf_new plain_env None = (RBUF_OK, Some ctx) -> len S = 512 ->
  exists ctx' log, rbuf_append ctx S 512 = Some (RBUF_ERR, ctx', log).
Proof.
  intros Hnew HS. inversion Hnew; subst ctx; clear Hnew.
  unfold rbuf_append, rbuf_copy_from. cbn [cache buff_size buff_cap].
  change (U32.add 0 512) with 512. change (512 >? 0) with true. cbv iota.
  match goal with |- context [rbuf_resize ?c 512] =>
    assert (Hr : rbuf_resize c 512 = Some (RBUF_OK,
      {| bque := {| bque_nodes := [repeat x00 512]; bque_fate := [] |};
         conf := {| block_size := RBUF_DEF_BLOCK_SIZE; size_max := RBUF_DEF_SIZE_MAX |};
         cache := {| block_num := 1; buff_cap := 512; buff_size := 512;
                     last_block_buff_size := 512 |} |})) by reflexivity;
    rewrite Hr
  end.
  match goal with |- context [copy_from_blocks ?c S 0 512 512] =>
    destruct (copy_from_blocks_flat c) with (offs := 0) (size := 512) (buff := S)
      as (ctx' & log & Hrun & _)
  end.
  all: unfold uniform in *; fields;
    unfold RBUF_DEF_BLOCK_SIZE, RBUF_DEF_SIZE_MAX in *; rewrite ?modulus_eq;
    change ((0 + 512) / 512) with 1 in *;
    change (len [repeat x00 512]) with 1 in *; try lia.
  - repeat constructor; apply len_repeat.
  - cbn [bque conf block_size bque_nodes] in Hrun. unfold RBUF_DEF_BLOCK_SIZE in Hrun.
    change ((0 + 512) / 512) with 1 in Hrun.
    change (len [repeat x00 512]) with 1 in Hrun.
    change (0 + 512) with 512 in Hrun. rewrite Hrun. eauto.
Qed.

(** ** Every reachable buffer is well-formed *)

Lemma block_store_keeps (bs : Z) (q q' : bque_ctx) (b : bque_buff) (bo : Z)
    (src : list byte) (so n : Z) :
  block_store q b bo src so n = Some q' -> uniform bs q ->
  uniform bs q' /\ len (bque_nodes q') = len (bque_nodes q) /\
  bque_fate q' = bque_fate q.
Proof.
  unfold block_store. intros H Hu.
  destruct (nth_error (bque_nodes q) (ptr b)) as [node |] eqn:Hnode; [| discriminate].
  destruct (memcpy node bo src so n) as [node' |] eqn:Hcp; [| discriminate].
  inversion H; subst q'; clear H. cbn [bque_nodes bque_fate].
  apply nth_error_split in Hnode. destruct Hnode as (A & B & Hq & HA).
  unfold uniform in *. rewrite Hq in *. rewrite <- HA, list_set_app.
  apply Forall_app in Hu. destruct Hu as [HuA HuB].
  inversion HuB as [| ? ? Hlen HuB']; subst.
  assert (Hl : len node' = len node).
  { unfold memcpy, mem_read in Hcp.
    destruct (in_object so n (len src)); [| discriminate].
    unfold mem_write, in_object in Hcp.
    destruct (Z.leb_spec 0 bo); [| discriminate].
    destruct (Z.leb_spec 0 (len (slice src so n))); [| discriminate].
    destruct (Z.leb_spec (bo + len (slice src so n)) (len node)); [| discriminate].
    inversion Hcp. apply len_splice; lia. }
  repeat split.
  - apply Forall_app. split; [exact HuA |]. constructor; [exact Hl | exact HuB'].
  - rewrite !len_app. unfold len. cbn [length]. reflexivity.
Qed.

Lemma copy_from_loop_keeps (bs : Z) (buff : list byte) (n : nat) :
  forall (i : Z) (q q' : bque_ctx) (bo R : Z) (r : rbuf_res) (log : list subcopy),
  copy_from_loop n i q bs buff bo R = Some (r, q', log) -> uniform bs q ->
  uniform bs q' /\ len (bque_nodes q') = len (bque_nodes q).
Proof.
  induction n as [| n IH]; intros i q q' bo R r log H Hu; cbn [copy_from_loop] in H.
  - inversion H; subst. auto.
  - destruct (bque_item q (U32.to_s32 i)) as [b |]; [| inversion H; subst; auto].
    destruct (block_store q b 0 buff bo _) as [q1 |] eqn:Hst; [| discriminate].
    apply (block_store_keeps bs) in Hst; [| exact Hu].
    destruct Hst as (Hu1 & Hl1 & _).
    destruct (copy_from_loop n _ q1 bs buff _ _) as [[[r2 q2] log2] |] eqn:Hloop;
      [| discriminate].
    inversion H; subst. apply IH in Hloop; [| exact Hu1].
    destruct Hloop. split; [assumption | congruence].
Qed.

Lemma copy_from_blocks_keeps (ctx ctx' : rbuf_ctx) (buff : list byte)
    (offs size new_size : Z) (r : rbuf_res) (log : list subcopy) :
  copy_from_blocks ctx buff offs size new_size = Some (r, ctx', log) ->
  uniform (block_size (conf ctx)) (bque ctx) ->
  uniform (block_size (conf ctx)) (bque ctx') /\
  len (bque_nodes (bque ctx')) = len (bque_nodes (bque ctx)) /\
  cache ctx' = cache ctx /\ conf ctx' = conf ctx.
Proof.
  unfold copy_from_blocks. intros H Hu.
  destruct (block_size (conf ctx) =? 0); [discriminate |]. cbv zeta in H.
  destruct (_ =? _).
  - destruct (bque_item _ _) as [b |]; [| inversion H; subst; auto].
    destruct (block_store _ b _ buff 0 size) as [q1 |] eqn:Hst; [| discriminate].
    inversion H; subst. apply (block_store_keeps _ _ _ _ _ _ _ _ Hst) in Hu.
    destruct Hu as (Hu1 & Hl1 & _). auto.
  - destruct (bque_item _ _) as [b |]; [| inversion H; subst; auto].
    destruct (block_store _ b _ buff 0 _) as [q1 |] eqn:Hst; [| discriminate].
    apply (block_store_keeps _ _ _ _ _ _ _ _ Hst) in Hu. destruct Hu as (Hu1 & Hl1 & _).
    destruct (copy_from_loop _ _ q1 _ buff _ _) as [[[r2 q2] log2] |] eqn:Hloop;
      [| discriminate].
    inversion H; subst. apply copy_from_loop_keeps in Hloop; [| exact Hu1].
    destruct Hloop. cbn [set_bque bque cache conf]. repeat split; congruence.
Qed.

Lemma wf_blocks_only (ctx ctx' : rbuf_ctx) :
  wf ctx -> cache ctx' = cache ctx -> conf ctx' = conf ctx ->
  uniform (block_size (conf ctx)) (bque ctx') ->
  len (bque_nodes (bque ctx')) = len (bque_nodes (bque ctx)) ->
  wf ctx'.
Proof.
  intros [] Hc Hf Hu Hl. constructor; rewrite ?Hc, ?Hf, ?Hl; assumption.
Qed.

Lemma copy_from_wf (ctx ctx' : rbuf_ctx) (buff : list byte) (offs size : Z)
    (r : rbuf_res) (log : list subcopy) :
  wf ctx -> conf_fits (conf ctx) ->
  rbuf_copy_from ctx buff offs size = Some (r, ctx', log) ->
  wf ctx' /\ conf ctx' = conf ctx.
Proof.
  intros Hwf Hfit H. unfold rbuf_copy_from in H.
  assert (Hr : U32.range (U32.add offs size)) by (apply Z.mod_pos_bound; reflexivity).
  destruct (_ >? _).
  - destruct (rbuf_resize ctx (U32.add offs size)) as [[res ctx1] |] eqn:Hres;
      [| discriminate].
    pose proof (resize_wf ctx ctx1 _ res Hwf Hfit Hr Hres) as Hwf1.
    destruct (resize_defined ctx (U32.add offs size)) as (r0 & c0 & Hres0 & Hconf).
    { destruct Hwf. lia. }
    rewrite Hres in Hres0. inversion Hres0; subst r0 c0.
    destruct res; try (inversion H; subst; auto).
    apply copy_from_blocks_keeps in H; [| apply Hwf1].
    destruct H as (Hu & Hl & Hc & Hf).
    split; [| congruence]. apply (wf_blocks_only ctx1); assumption.
  - apply copy_from_blocks_keeps in H; [| apply Hwf].
    destruct H as (Hu & Hl & Hc & Hf).
    split; [| congruence]. apply (wf_blocks_only ctx); assumption.
Qed.

Lemma copy_to_keeps_ctx (ctx ctx' : rbuf_ctx) (buff buff' : list byte) (offs size : Z)
    (r : rbuf_res) (log : list subcopy) :
  rbuf_copy_to ctx buff offs size = Some (r, ctx', buff', log) -> ctx' = ctx.
Proof.
  unfold rbuf_copy_to. intros H.
  destruct (_ >? _); [inversion H; reflexivity |].
  destruct (_ >? _); [inversion H; reflexivity |].
  destruct (_ =? 0); [discriminate |]. cbv zeta in H.
  destruct (_ =? _).
  - destruct (bque_item _ _); [| inversion H; reflexivity].
    destruct (block_load _ _ _ _ _ _); [| discriminate]. inversion H; reflexivity.
  - destruct (bque_item _ _); [| inversion H; reflexivity].
    destruct (block_load _ _ _ _ _ _); [| discriminate].
    destruct (copy_to_loop _ _ _ _ _ _ _) as [[[r2 b2] l2] |]; [| discriminate].
    inversion H; reflexivity.
Qed.

(** with a configuration whose capacity fits 32 bits, every buffer a program
    can reach is well-formed *)
Theorem reachable_wf (c : rbuf_conf) (ctx : rbuf_ctx) :
  conf_fits c -> reachable c ctx -> wf ctx /\ conf ctx = c.
Proof.
  intros Hfit Hreach. induction Hreach as
    [env ctx Hnew
    | ctx ctx' size r _ [IHwf IHc] Hs Hres
    | ctx ctx' buff offs size r log _ [IHwf IHc] _ _ Hcp
    | ctx ctx' buff buff' offs size r log _ [IHwf IHc] _ _ Hcp].
  - destruct Hfit as (Hb & Hm & Hsum).
    destruct (new_wf env (Some c) ctx) as (Hwf & _); [| exact Hnew |].
    + unfold U32.range. lia.
    + split; [exact Hwf |].
      unfold rbuf_new, bque_new in Hnew.
      destruct (store_outcome env); try discriminate.
      destruct (ctx_allocated env); try discriminate.
      inversion Hnew; subst. destruct c; reflexivity.
  - split.
    + apply (resize_wf ctx ctx' size r); try assumption. rewrite IHc. exact Hfit.
    + destruct (resize_defined ctx size) as (r0 & c0 & Hres0 & Hconf).
      { destruct IHwf. lia. }
      rewrite Hres in Hres0. inversion Hres0; subst. congruence.
  - destruct (copy_from_wf ctx ctx' buff offs size r log IHwf) as [Hwf Hconf];
      [rewrite IHc; exact Hfit | exact Hcp |].
    split; [exact Hwf | congruence].
  - apply copy_to_keeps_ctx in Hcp. subst ctx'. auto.
Qed.

(** * Further properties of the controller *)

(** ** [rbuf_new] *)

(** [rbuf_new] hands out a context exactly when it returns [RBUF_OK]; the new
    buffer holds no block, reports block count 0 and size 0, carries the
    configuration given (512 / 1024 when none is given), and is well-formed
    when the configured block size is a positive 32-bit value.  A failure is
    [RBUF_ERR_NO_MEM] or [RBUF_ERR]. *)
Theorem new_buffer (env : alloc_env) (c : option rbuf_conf) :
  match rbuf_new env c with
  | (RBUF_OK, Some ctx) =>
      bque_nodes (bque ctx) = [] /\
      rbuf_status ctx = (RBUF_OK, {| stat_block_num := 0; stat_buff_size := 0 |}) /\
      conf ctx = match c with
                 | Some c => c
                 | None => {| block_size := 512; size_max := 1024 |}
                 end /\
      (0 < block_size (conf ctx) < U32.modulus -> U32.range (size_max (conf ctx)) ->
       wf ctx)
  | (RBUF_OK, None) => False
  | (_, Some _) => False
  | (r, None) => r = RBUF_ERR_NO_MEM \/ r = RBUF_ERR
  end.
Proof.
  unfold rbuf_new, bque_new.
  destruct (store_outcome env); [| auto | auto].
  destruct (ctx_allocated env); [| auto].
  split; [reflexivity |]. split; [reflexivity |]. split.
  - destruct c as [[bs sm] |]; reflexivity.
  - cbn [conf]. intros Hbs Hsm. unfold U32.range in *.
    destruct c as [[bs sm] |]; cbn [block_size size_max] in Hbs, Hsm;
      (constructor; unfold U32.range; fields; rewrite ?modulus_eq in *;
       first [lia | apply Forall_nil | unfold len; cbn [length]; lia]).
Qed.

(** ** [rbuf_resize]: what else it guarantees *)

Lemma shrink_loop_nodes (n : nat) : forall (q q' : bque_ctx) (r : bque_res),
  resize_shrink_loop n q = (r, q') ->
  exists k : nat,
    (k <= n)%nat /\
    bque_nodes q' = firstn (length (bque_nodes q) - k) (bque_nodes q) /\
    bque_fate q' = bque_fate q.
Proof.
  induction n as [| n IH]; intros q q' r H; cbn [resize_shrink_loop] in H.
  - inversion H; subst. exists 0%nat. rewrite Nat.sub_0_r, firstn_all. auto.
  - unfold bque_forfeit in H. destruct (bque_nodes q) as [| b l] eqn:Hq.
    + inversion H; subst. exists 0%nat. rewrite Hq. cbn. auto with arith.
    + apply IH in H. destruct H as (k & Hk & Hn & Hf). cbn [bque_nodes bque_fate] in *.
      exists (S k). split; [lia |]. split; [| exact Hf].
      rewrite Hn, removelast_firstn_len, length_firstn, firstn_firstn.
      f_equal. cbn [length]. lia.
Qed.

(** the blocks a successful [rbuf_resize] leaves in the store *)
Lemma resize_store (ctx ctx' : rbuf_ctx) (size : Z) :
  wf ctx -> U32.range size ->
  rbuf_resize ctx size = Some (RBUF_OK, ctx') ->
  let bs := block_size (conf ctx) in
  let n := blocks_for bs size in
  block_num (cache ctx') = n /\ conf ctx' = conf ctx /\
  (block_num (cache ctx) <= n ->
   bque_nodes (bque ctx') =
     bque_nodes (bque ctx)
       ++ repeat (repeat x00 (Z.to_nat bs)) (Z.to_nat (n - block_num (cache ctx)))) /\
  (n <= block_num (cache ctx) ->
   bque_nodes (bque ctx') =
     firstn (length (bque_nodes (bque ctx)) - Z.to_nat (block_num (cache ctx) - n))
            (bque_nodes (bque ctx)) /\
   bque_fate (bque ctx') = bque_fate (bque ctx)).
Proof.
  intros Hwf Hs H bs n. destruct Hwf. fold bs in wf_block_size0, wf_buff_cap0.
  pose proof (blocks_for_range bs size ltac:(lia) Hs) as Hr. fold n in Hr.
  assert (Hbn : block_num (cache ctx) < U32.modulus) by (rewrite modulus_eq in *; nia).
  unfold rbuf_resize in H. fold bs in H.
  rewrite Z.gtb_ltb in H.
  destruct (Z.ltb_spec (size_max (conf ctx)) size); [discriminate |].
  destruct (Z.eqb_spec bs 0); [lia |].
  cbv zeta in H. rewrite new_block_num_eq in H by (assumption || lia). fold n in H.
  unfold U32.range in Hr. rewrite Z.gtb_ltb in H.
  destruct (Z.ltb_spec (block_num (cache ctx)) n) as [Hgt | Hle].
  - rewrite sub_small in H by lia.
    destruct (resize_grow_loop _ _ _) as [rq q] eqn:Hloop.
    apply grow_loop_nodes in Hloop. destruct Hloop as (k & Hk & _ & Hok).
    destruct rq; inversion H; subst ctx'; clear H.
    rewrite (Hok eq_refl) in Hk. fields.
    repeat split; try reflexivity; [intros _; exact Hk | lia | lia].
  - destruct (Z.ltb_spec n (block_num (cache ctx))) as [Hlt | Hge].
    + rewrite sub_small in H by lia.
      rewrite shrink_loop_ok in H by (unfold len in *; lia).
      inversion H; subst ctx'; clear H. fields.
      repeat split; try reflexivity; lia.
    + assert (E : n = block_num (cache ctx)) by lia.
      inversion H; subst ctx'; clear H. fields. rewrite E, Z.sub_diag.
      cbn [Z.to_nat repeat]. rewrite app_nil_r, Nat.sub_0_r, firstn_all. auto.
Qed.

(** [rbuf_resize] keeps the buffer well-formed, whether it succeeds or fails,
    when the configuration keeps the capacity within 32 bits. *)
Theorem resize_keeps_wf (ctx ctx' : rbuf_ctx) (size : Z) (r : rbuf_res) :
  wf ctx -> conf_fits (conf ctx) -> U32.range size ->
  rbuf_resize ctx size = Some (r, ctx') ->
  wf ctx' /\ conf ctx' = conf ctx.
Proof.
  intros Hwf Hfit Hs H. split; [exact (resize_wf ctx ctx' size r Hwf Hfit Hs H) |].
  destruct (resize_defined ctx size) as (r0 & c0 & H0 & Hconf).
  { destruct Hwf. lia. }
  rewrite H in H0. inversion H0; subst. exact Hconf.
Qed.

Lemma conf_4_16_fits : conf_fits conf_4_16.
Proof. unfold conf_fits, conf_4_16. fields. rewrite modulus_eq. lia. Qed.

Lemma resize_keeps_wf_witness :
  wf resized_8 /\ conf resized_8 = conf (fresh_4_16 []).
Proof.
  apply (resize_keeps_wf (fresh_4_16 []) resized_8 8 RBUF_OK);
    [apply fresh_wf | apply conf_4_16_fits | u32_range | reflexivity].
Defined.

(** a second [rbuf_resize] to the size just set succeeds whatever the
    allocator would do, and changes nothing: neither the cached fields nor
    the block store. *)
Theorem resize_again (ctx ctx' : rbuf_ctx) (size : Z) :
  rbuf_resize ctx size = Some (RBUF_OK, ctx') ->
  rbuf_resize ctx' size = Some (RBUF_OK, ctx').
Proof.
  intros H. apply resize_success_cache in H. cbv zeta in H.
  destruct H as (Hbs & Hmax & Hconf & Hsz & Hlast & Hn & _).
  unfold rbuf_resize. rewrite Hconf.
  rewrite Z.gtb_ltb. destruct (Z.ltb_spec (size_max (conf ctx)) size); [lia |].
  destruct (Z.eqb_spec (block_size (conf ctx)) 0); [contradiction |].
  cbv zeta. rewrite <- Hn, <- Hlast, Z.gtb_ltb, !Z.ltb_irrefl.
  destruct ctx' as [q c [bn cap sz l]]. cbn in Hsz. subst sz. reflexivity.
Qed.

Lemma resize_again_witness : rbuf_resize resized_8 8 = Some (RBUF_OK, resized_8).
Proof. apply (resize_again (fresh_4_16 []) resized_8 8). reflexivity. Defined.

(** a resize that needs no more blocks than the buffer records never fails:
    the allocator is not consulted and blocks are only released from the
    tail. *)
Theorem resize_without_growth (ctx : rbuf_ctx) (size : Z) :
  wf ctx -> U32.range size -> size <= size_max (conf ctx) ->
  blocks_for (block_size (conf ctx)) size <= block_num (cache ctx) ->
  exists ctx',
    rbuf_resize ctx size = Some (RBUF_OK, ctx') /\
    bque_fate (bque ctx') = bque_fate (bque ctx) /\
    bque_nodes (bque ctx') =
      firstn (length (bque_nodes (bque ctx))
              - Z.to_nat (block_num (cache ctx) - blocks_for (block_size (conf ctx)) size))
             (bque_nodes (bque ctx)).
Proof.
  intros Hwf Hs Hmax Hle.
  destruct (resize_succeeds ctx size Hwf Hs Hmax) as (ctx' & Hr & _).
  { unfold grants.
    replace (Z.to_nat (blocks_for (block_size (conf ctx)) size - block_num (cache ctx)))
      with 0%nat by lia.
    constructor. }
  exists ctx'. split; [exact Hr |].
  destruct (resize_store ctx ctx' size Hwf Hs Hr) as (_ & _ & _ & Hshrink).
  destruct (Hshrink Hle) as [Hn Hf]. auto.
Qed.

Lemma resize_without_growth_witness :
  exists ctx',
    rbuf_resize abcdef_6 3 = Some (RBUF_OK, ctx') /\
    bque_fate (bque ctx') = bque_fate (bque abcdef_6) /\
    bque_nodes (bque ctx') =
      firstn (length (bque_nodes (bque abcdef_6))
              - Z.to_nat (block_num (cache abcdef_6)
                          - blocks_for (block_size (conf abcdef_6)) 3))
             (bque_nodes (bque abcdef_6)).
Proof.
  apply (resize_without_growth abcdef_6 3);
    [apply abcdef_6_wf | u32_range | cbn; lia | cbn; lia].
Defined.

(** a failing [rbuf_resize] on a well-formed buffer: the status and every
    cached field are as before, every block held before is still held, in
    place, and the failure is either [RBUF_ERR_BAD_SIZE] for a size above
    [size_max] (nothing touched at all) or the allocator's failure during a
    growth; releasing blocks never fails. *)
Theorem resize_failure (ctx ctx' : rbuf_ctx) (size : Z) (r : rbuf_res) :
  wf ctx -> U32.range size ->
  rbuf_resize ctx size = Some (r, ctx') -> r <> RBUF_OK ->
  rbuf_status ctx' = rbuf_status ctx /\
  cache ctx' = cache ctx /\ conf ctx' = conf ctx /\
  (exists added, bque_nodes (bque ctx') = bque_nodes (bque ctx) ++ added) /\
  ((r = RBUF_ERR_BAD_SIZE /\ size > size_max (conf ctx) /\ ctx' = ctx) \/
   ((r = RBUF_ERR_NO_MEM \/ r = RBUF_ERR) /\ size <= size_max (conf ctx) /\
    block_num (cache ctx) < blocks_for (block_size (conf ctx)) size)).
Proof.
  intros Hwf Hs H Hr.
  destruct (resize_failure_keeps_cache ctx ctx' size r H Hr) as (Hc & Hf & _).
  split; [unfold rbuf_status; rewrite Hc; reflexivity |].
  split; [exact Hc |]. split; [exact Hf |].
  destruct Hwf. set (bs := block_size (conf ctx)) in *.
  pose proof (blocks_for_range bs size ltac:(lia) Hs) as Hrange.
  assert (Hbn : block_num (cache ctx) < U32.modulus) by (rewrite modulus_eq in *; nia).
  unfold rbuf_resize in H. fold bs in H. rewrite Z.gtb_ltb in H.
  destruct (Z.ltb_spec (size_max (conf ctx)) size) as [Hbig | Hok].
  { inversion H; subst. split; [exists []; rewrite app_nil_r; reflexivity |].
    left. repeat split. lia. }
  destruct (Z.eqb_spec bs 0); [lia |].
  cbv zeta in H. rewrite new_block_num_eq in H by (assumption || lia).
  unfold U32.range in Hrange. rewrite Z.gtb_ltb in H.
  destruct (Z.ltb_spec (block_num (cache ctx)) (blocks_for bs size)) as [Hgt | Hle].
  - destruct (resize_grow_loop _ _ _) as [rq q] eqn:Hloop.
    apply grow_loop_nodes in Hloop. destruct Hloop as (k & Hk & _ & _).
    destruct rq; inversion H; subst; try contradiction;
      (split; [eexists; exact Hk | right; auto]).
  - destruct (Z.ltb_spec (blocks_for bs size) (block_num (cache ctx))) as [Hlt | Hge].
    + rewrite sub_small in H by lia.
      rewrite shrink_loop_ok in H by (unfold len in *; lia).
      inversion H; subst. contradiction.
    + inversion H; subst. contradiction.
Qed.

Lemma resize_failure_witness :
  rbuf_status stale_1 = rbuf_status (fresh_4_16 [BQUE_OK; BQUE_ERR_NO_MEM]) /\
  cache stale_1 = cache (fresh_4_16 [BQUE_OK; BQUE_ERR_NO_MEM]) /\
  conf stale_1 = conf (fresh_4_16 [BQUE_OK; BQUE_ERR_NO_MEM]) /\
  (exists added,
     bque_nodes (bque stale_1)
       = bque_nodes (bque (fresh_4_16 [BQUE_OK; BQUE_ERR_NO_MEM])) ++ added) /\
  ((RBUF_ERR_NO_MEM = RBUF_ERR_BAD_SIZE /\
    8 > size_max (conf (fresh_4_16 [BQUE_OK; BQUE_ERR_NO_MEM])) /\
    stale_1 = fresh_4_16 [BQUE_OK; BQUE_ERR_NO_MEM]) \/
   ((RBUF_ERR_NO_MEM = RBUF_ERR_NO_MEM \/ RBUF_ERR_NO_MEM = RBUF_ERR) /\
    8 <= size_max (conf (fresh_4_16 [BQUE_OK; BQUE_ERR_NO_MEM])) /\
    block_num (cache (fresh_4_16 [BQUE_OK; BQUE_ERR_NO_MEM]))
      < blocks_for (block_size (conf (fresh_4_16 [BQUE_OK; BQUE_ERR_NO_MEM]))) 8)).
Proof.
  apply (resize_failure (fresh_4_16 [BQUE_OK; BQUE_ERR_NO_MEM]) stale_1 8 RBUF_ERR_NO_MEM);
    [apply fresh_wf | u32_range | reflexivity | discriminate].
Defined.

(** after a successful [rbuf_resize] the cached fields fit together: the
    block count is the rounded-up quotient, and the size is made of
    [block_num - 1] full blocks and the fill of the last one, which is
    between 1 and the block size; size 0 means no block and fill 0. *)
Theorem resize_fields_consistent (ctx ctx' : rbuf_ctx) (size : Z) :
  0 < block_size (conf ctx) -> U32.range size ->
  rbuf_resize ctx size = Some (RBUF_OK, ctx') ->
  let bs := block_size (conf ctx) in
  buff_size (cache ctx') = size /\
  block_num (cache ctx') = blocks_for bs size /\
  (size = 0 -> block_num (cache ctx') = 0 /\ last_block_buff_size (cache ctx') = 0) /\
  (0 < size ->
   0 < last_block_buff_size (cache ctx') <= bs /\
   size = bs * (block_num (cache ctx') - 1) + last_block_buff_size (cache ctx')).
Proof.
  intros Hbs Hs H bs. apply resize_success_cache in H. cbv zeta in H. fold bs in H.
  destruct H as (_ & _ & _ & Hsz & Hlast & Hn & _).
  rewrite new_block_num_eq in Hn by assumption.
  rewrite Hsz, Hn, Hlast. unfold blocks_for.
  pose proof (Z.div_mod size bs ltac:(lia)) as Hdm.
  pose proof (Z.mod_pos_bound size bs Hbs) as Hmod.
  assert (Hq : 0 <= size / bs) by (apply Z.div_pos; [apply Hs | lia]).
  split; [reflexivity |]. split; [reflexivity |].
  destruct (Z.eqb_spec (size / bs) 0) as [Eq | Eq];
    destruct (Z.eqb_spec (size mod bs) 0) as [Er | Er]; cbn [negb andb];
    split; intros; try lia; nia.
Qed.

Lemma resize_fields_consistent_witness :
  buff_size (cache resized_8) = 8 /\
  block_num (cache resized_8) = blocks_for (block_size (conf (fresh_4_16 []))) 8 /\
  (8 = 0 -> block_num (cache resized_8) = 0 /\ last_block_buff_size (cache resized_8) = 0) /\
  (0 < 8 ->
   0 < last_block_buff_size (cache resized_8) <= block_size (conf (fresh_4_16 [])) /\
   8 = block_size (conf (fresh_4_16 [])) * (block_num (cache resized_8) - 1)
       + last_block_buff_size (cache resized_8)).
Proof.
  apply (resize_fields_consistent (fresh_4_16 []) resized_8 8);
    [cbn; lia | u32_range | reflexivity].
Defined.

(** a successful [rbuf_resize] keeps the bytes of every block that stays:
    a growth appends to the flat contents, a shrink cuts them at the tail;
    the blocks left over from an earlier failed growth stay as many as they
    were. *)
Theorem resize_keeps_contents (ctx ctx' : rbuf_ctx) (size : Z) :
  wf ctx -> U32.range size ->
  rbuf_resize ctx size = Some (RBUF_OK, ctx') ->
  len (bque_nodes (bque ctx')) - block_num (cache ctx')
    = len (bque_nodes (bque ctx)) - block_num (cache ctx) /\
  (block_num (cache ctx) <= block_num (cache ctx') ->
   exists tail, flat (bque ctx') = flat (bque ctx) ++ tail) /\
  (block_num (cache ctx') <= block_num (cache ctx) ->
   exists tail, flat (bque ctx) = flat (bque ctx') ++ tail).
Proof.
  intros Hwf Hs H.
  destruct (resize_store ctx ctx' size Hwf Hs H) as (Hn & _ & Hgrow & Hshrink).
  cbv zeta in *. rewrite Hn. destruct Hwf.
  pose proof (blocks_for_range (block_size (conf ctx)) size ltac:(lia) Hs) as [Hn0 _].
  set (n := blocks_for (block_size (conf ctx)) size) in *.
  assert (Hcut : n <= block_num (cache ctx) ->
                 bque_nodes (bque ctx) =
                   bque_nodes (bque ctx') ++
                   skipn (length (bque_nodes (bque ctx))
                          - Z.to_nat (block_num (cache ctx) - n)) (bque_nodes (bque ctx))).
  { intros Hle. destruct (Hshrink Hle) as [-> _]. symmetry. apply firstn_skipn. }
  split; [| split].
  - destruct (Z.le_ge_cases (block_num (cache ctx)) n) as [Hle | Hge].
    + rewrite (Hgrow Hle), len_app, len_repeat. lia.
    + destruct (Hshrink Hge) as [-> _]. rewrite len_firstn by lia.
      unfold len in *. lia.
  - intros Hle. unfold flat. rewrite (Hgrow Hle), concat_app. eauto.
  - intros Hge. unfold flat. eexists. rewrite <- concat_app. f_equal. exact (Hcut Hge).
Qed.

Lemma resize_keeps_contents_witness :
  len (bque_nodes (bque resized_8)) - block_num (cache resized_8)
    = len (bque_nodes (bque (fresh_4_16 []))) - block_num (cache (fresh_4_16 [])) /\
  (block_num (cache (fresh_4_16 [])) <= block_num (cache resized_8) ->
   exists tail, flat (bque resized_8) = flat (bque (fresh_4_16 [])) ++ tail) /\
  (block_num (cache resized_8) <= block_num (cache (fresh_4_16 [])) ->
   exists tail, flat (bque (fresh_4_16 [])) = flat (bque resized_8) ++ tail).
Proof.
  apply (resize_keeps_contents (fresh_4_16 []) resized_8 8);
    [apply fresh_wf | u32_range | reflexivity].
Defined.

(** ** The copy routines: what else they guarantee *)

(** a copy-in that ends within the capacity replaces exactly the bytes at
    [offs .. offs + size) of the buffer's contents by the first [size] source
    bytes; the other bytes, the number of blocks and the cached fields stay.
    It reports [RBUF_OK] when the block of index [(offs + size) / block_size]
    is held and [RBUF_ERR] when it is not. *)
Theorem copy_from_in_place (ctx : rbuf_ctx) (buff : list byte) (offs size : Z) :
  wf ctx -> 0 <= offs -> 0 <= size -> size <= len buff ->
  offs + size <= buff_cap (cache ctx) ->
  (offs + size) / block_size (conf ctx) < 2 ^ 31 ->
  exists ctx' log,
    rbuf_copy_from ctx buff offs size =
      Some (if (offs + size) / block_size (conf ctx) <? len (bque_nodes (bque ctx))
            then RBUF_OK else RBUF_ERR, ctx', log) /\
    flat (bque ctx') = splice (flat (bque ctx)) offs (slice buff 0 size) /\
    len (bque_nodes (bque ctx')) = len (bque_nodes (bque ctx)) /\
    cache ctx' = cache ctx /\ conf ctx' = conf ctx.
Proof.
  intros Hwf Ho Hs Hsrc Hcap H31. destruct Hwf.
  assert (Hheld : offs + size
                  <= len (bque_nodes (bque ctx)) * block_size (conf ctx)) by nia.
  destruct (copy_from_implicit_resize ctx buff offs size) as [Hno _].
  { unfold U32.range. lia. }
  rewrite (Hno Hcap).
  destruct (copy_from_blocks_flat ctx wf_blocks0 wf_block_size0 offs size Ho Hs
              ltac:(lia) Hheld H31 buff Hsrc)
    as (ctx' & log & Hrun & Hflat & _ & Hl & _ & Hc & Hf).
  exists ctx', log. auto.
Qed.

Lemma copy_from_in_place_witness :
  exists ctx' log,
    rbuf_copy_from abcdef_6 ["X"; "Y"; "Z"]%byte 3 3 =
      Some (if (3 + 3) / block_size (conf abcdef_6) <? len (bque_nodes (bque abcdef_6))
            then RBUF_OK else RBUF_ERR, ctx', log) /\
    flat (bque ctx')
      = splice (flat (bque abcdef_6)) 3 (slice ["X"; "Y"; "Z"]%byte 0 3) /\
    len (bque_nodes (bque ctx')) = len (bque_nodes (bque abcdef_6)) /\
    cache ctx' = cache abcdef_6 /\ conf ctx' = conf abcdef_6.
Proof.
  apply (copy_from_in_place abcdef_6 ["X"; "Y"; "Z"]%byte 3 3);
    [apply abcdef_6_wf | lia | lia | cbn; lia | cbn; lia | cbn; lia].
Defined.

(** a copy-out of a range within the logical size stores the bytes at
    [offs .. offs + size) of the buffer's contents into the first [size]
    bytes of the destination, leaves the rest of the destination and the
    whole context alone, and reports as the copy-in does. *)
Theorem copy_to_reads (ctx : rbuf_ctx) (dst : list byte) (offs size : Z) :
  wf ctx -> 0 <= offs -> 0 <= size -> size <= len dst ->
  offs + size <= buff_size (cache ctx) ->
  (offs + size) / block_size (conf ctx) < 2 ^ 31 ->
  exists log,
    rbuf_copy_to ctx dst offs size =
      Some (if (offs + size) / block_size (conf ctx) <? len (bque_nodes (bque ctx))
            then RBUF_OK else RBUF_ERR, ctx,
            slice (flat (bque ctx)) offs size ++ skipn (Z.to_nat size) dst, log).
Proof.
  intros Hwf Ho Hs Hdst Hin H31. destruct Hwf.
  assert (Hheld : offs + size
                  <= len (bque_nodes (bque ctx)) * block_size (conf ctx)) by nia.
  destruct (copy_to_flat ctx wf_blocks0 wf_block_size0 offs size Ho Hs
              ltac:(lia) Hheld H31 dst Hin Hdst) as (log & ->).
  exists log. do 3 f_equal.
  pose proof (len_flat _ (bque ctx) wf_blocks0) as Hlf.
  unfold splice. cbn [Z.to_nat firstn app]. rewrite Z.add_0_l, len_slice by lia.
  reflexivity.
Qed.

Lemma copy_to_reads_witness :
  exists log,
    rbuf_copy_to abcdef_6 (repeat x00 6) 1 4 =
      Some (if (1 + 4) / block_size (conf abcdef_6) <? len (bque_nodes (bque abcdef_6))
            then RBUF_OK else RBUF_ERR, abcdef_6,
            slice (flat (bque abcdef_6)) 1 4 ++ skipn (Z.to_nat 4) (repeat x00 6), log).
Proof.
  apply (copy_to_reads abcdef_6 (repeat x00 6) 1 4);
    [apply abcdef_6_wf | lia | lia | cbn; lia | cbn; lia | cbn; lia].
Defined.

(** a read that starts past the logical size is refused with
    [RBUF_ERR_BAD_OFFS], one that starts within it and ends past it, at an
    end that fits 32 bits, with [RBUF_ERR_BAD_SIZE]; neither touches the
    context or the destination. *)
Theorem copy_to_refuses (ctx : rbuf_ctx) (dst : list byte) (offs size : Z) :
  (offs > buff_size (cache ctx) ->
   rbuf_copy_to ctx dst offs size = Some (RBUF_ERR_BAD_OFFS, ctx, dst, [])) /\
  (offs <= buff_size (cache ctx) -> U32.range (offs + size) ->
   offs + size > buff_size (cache ctx) ->
   rbuf_copy_to ctx dst offs size = Some (RBUF_ERR_BAD_SIZE, ctx, dst, [])).
Proof. exact (copy_to_past_the_end ctx dst offs size). Qed.

Lemma copy_from_loop_verdict (bs : Z) (buff : list byte) (n : nat) :
  forall (i : Z) (q q' : bque_ctx) (bo R : Z) (r : rbuf_res) (log : list subcopy),
  copy_from_loop n i q bs buff bo R = Some (r, q', log) ->
  r = RBUF_OK \/ r = RBUF_ERR.
Proof.
  induction n as [| n IH]; intros i q q' bo R r log H; cbn [copy_from_loop] in H.
  - inversion H; auto.
  - destruct (bque_item q (U32.to_s32 i)) as [b |]; [| inversion H; auto].
    destruct (block_store q b 0 buff bo _) as [q1 |]; [| discriminate].
    destruct (copy_from_loop n _ q1 bs buff _ _) as [[[r2 q2] log2] |] eqn:Hloop;
      [| discriminate].
    inversion H; subst. eapply IH. exact Hloop.
Qed.

Lemma copy_from_blocks_verdict (ctx ctx' : rbuf_ctx) (buff : list byte)
    (offs size new_size : Z) (r : rbuf_res) (log : list subcopy) :
  copy_from_blocks ctx buff offs size new_size = Some (r, ctx', log) ->
  r = RBUF_OK \/ r = RBUF_ERR.
Proof.
  unfold copy_from_blocks. intros H.
  destruct (block_size (conf ctx) =? 0); [discriminate |]. cbv zeta in H.
  destruct (_ =? _).
  - destruct (bque_item _ _) as [b |]; [| inversion H; auto].
    destruct (block_store _ b _ buff 0 size); [| discriminate]. inversion H; auto.
  - destruct (bque_item _ _) as [b |]; [| inversion H; auto].
    destruct (block_store _ b _ buff 0 _) as [q1 |]; [| discriminate].
    destruct (copy_from_loop _ _ q1 _ buff _ _) as [[[r2 q2] log2] |] eqn:Hloop;
      [| discriminate].
    inversion H; subst. eapply copy_from_loop_verdict. exact Hloop.
Qed.

Lemma resize_bad_size (ctx ctx' : rbuf_ctx) (size : Z) :
  rbuf_resize ctx size = Some (RBUF_ERR_BAD_SIZE, ctx') ->
  ctx' = ctx /\ size > size_max (conf ctx).
Proof.
  unfold rbuf_resize. rewrite Z.gtb_ltb.
  destruct (Z.ltb_spec (size_max (conf ctx)) size) as [Hbig | Hok].
  { intros E. injection E as <-. split; [reflexivity | lia]. }
  destruct (block_size (conf ctx) =? 0); [discriminate |]. cbv zeta.
  destruct (_ >? block_num (cache ctx)).
  - destruct (resize_grow_loop _ _ _) as [[ | | ] q]; discriminate.
  - destruct (_ <? block_num (cache ctx)).
    + destruct (resize_shrink_loop _ _) as [[ | | ] q]; discriminate.
    + discriminate.
Qed.

(** [rbuf_copy_from] never returns [RBUF_ERR_BAD_OFFS]; when it returns
    [RBUF_ERR_BAD_SIZE] or [RBUF_ERR_NO_MEM] the failure is the implicit
    resize's: no byte has been copied and the cached fields are as before,
    and for [RBUF_ERR_BAD_SIZE] the whole context is. *)
Theorem copy_from_refused (ctx ctx' : rbuf_ctx) (buff : list byte) (offs size : Z)
    (r : rbuf_res) (log : list subcopy) :
  rbuf_copy_from ctx buff offs size = Some (r, ctx', log) ->
  r <> RBUF_ERR_BAD_OFFS /\
  (r = RBUF_ERR_BAD_SIZE \/ r = RBUF_ERR_NO_MEM ->
   log = [] /\ cache ctx' = cache ctx /\ conf ctx' = conf ctx /\
   U32.add offs size > buff_cap (cache ctx)) /\
  (r = RBUF_ERR_BAD_SIZE -> ctx' = ctx /\ U32.add offs size > size_max (conf ctx)).
Proof.
  unfold rbuf_copy_from. intros H. rewrite Z.gtb_ltb in H.
  assert (Hblocks : r = RBUF_OK \/ r = RBUF_ERR ->
            r <> RBUF_ERR_BAD_OFFS /\
            (r = RBUF_ERR_BAD_SIZE \/ r = RBUF_ERR_NO_MEM ->
             log = [] /\ cache ctx' = cache ctx /\ conf ctx' = conf ctx /\
             U32.add offs size > buff_cap (cache ctx)) /\
            (r = RBUF_ERR_BAD_SIZE ->
             ctx' = ctx /\ U32.add offs size > size_max (conf ctx))).
  { intros [-> | ->]; (split; [discriminate |]);
      (split; [intros [E | E]; discriminate | intros E; discriminate]). }
  destruct (Z.ltb_spec (buff_cap (cache ctx)) (U32.add offs size)) as [Hgt | Hle].
  - destruct (rbuf_resize ctx (U32.add offs size)) as [[res ctx1] |] eqn:Hres;
      [| discriminate].
    destruct res;
      [apply Hblocks; eapply copy_from_blocks_verdict; exact H | | | |].
    all: inversion H; subst r ctx' log; clear H Hblocks.
    all: destruct (resize_failure_keeps_cache _ _ _ _ Hres ltac:(discriminate))
           as (Hc & Hf & Hno).
    all: split; [exact Hno |].
    all: split; [intros _; repeat split; auto; lia |].
    all: intros E; try discriminate E.
    apply resize_bad_size in Hres. destruct Hres as [-> Hbig]. auto.
  - apply Hblocks. eapply copy_from_blocks_verdict. exact H.
Qed.

Lemma copy_from_refused_witness :
  RBUF_ERR_BAD_SIZE <> RBUF_ERR_BAD_OFFS /\
  (RBUF_ERR_BAD_SIZE = RBUF_ERR_BAD_SIZE \/ RBUF_ERR_BAD_SIZE = RBUF_ERR_NO_MEM ->
   @nil subcopy = [] /\ cache abcdef_6 = cache abcdef_6 /\ conf abcdef_6 = conf abcdef_6 /\
   U32.add 6 11 > buff_cap (cache abcdef_6)) /\
  (RBUF_ERR_BAD_SIZE = RBUF_ERR_BAD_SIZE ->
   abcdef_6 = abcdef_6 /\ U32.add 6 11 > size_max (conf abcdef_6)).
Proof.
  apply (copy_from_refused abcdef_6 abcdef_6 (repeat x00 11) 6 11 RBUF_ERR_BAD_SIZE []).
  reflexivity.
Defined.

Lemma round_trip_witness :
  exists ctx' log1 log2,
    rbuf_copy_from abcdef_6 ["X"; "Y"]%byte 1 2 = Some (RBUF_OK, ctx', log1) /\
    rbuf_copy_to ctx' [x00; x00] 1 2 = Some (RBUF_OK, ctx', ["X"; "Y"]%byte, log2).
Proof.
  apply (round_trip abcdef_6 ["X"; "Y"]%byte [x00; x00] 1 2);
    [apply abcdef_6_wf | lia | lia | cbn; lia | reflexivity | reflexivity
    | cbn; lia | cbn; lia].
Defined.



Lemma abcdef_6_reachable : reachable conf_4_16 abcdef_6.
Proof.
  eapply (reach_copy_from conf_4_16 ab_2 abcdef_6 ["C"; "D"; "E"; "F"]%byte 2 4 RBUF_OK);
    [| u32_range | u32_range | reflexivity].
  eapply (reach_copy_from conf_4_16 (fresh_4_16 []) ab_2 ["A"; "B"]%byte 0 2 RBUF_OK);
    [| u32_range | u32_range | reflexivity].
  apply (reach_new conf_4_16 plain_env). reflexivity.
Qed.

Lemma reachable_wf_witness : wf abcdef_6 /\ conf abcdef_6 = conf_4_16.
Proof.
  apply (reachable_wf conf_4_16 abcdef_6);
    [apply conf_4_16_fits | apply abcdef_6_reachable].
Defined.

(** ** [rbuf_append] and the growing copy-in *)

Lemma ab_2_wf : wf ab_2.
Proof.
  constructor; unfold U32.range; cbn; rewrite ?modulus_eq; try lia.
  repeat constructor.
Qed.

(** an append that fits the spare capacity writes its bytes after the
    logical end but does not move that end: the status is as before, so the
    next append starts at the same offset. *)
Theorem append_in_spare_capacity (ctx : rbuf_ctx) (buff : list byte) (size : Z) :
  wf ctx -> 0 <= size -> size <= len buff ->
  buff_size (cache ctx) + size <= buff_cap (cache ctx) ->
  (buff_size (cache ctx) + size) / block_size (conf ctx) < 2 ^ 31 ->
  exists r ctx' log,
    rbuf_append ctx buff size = Some (r, ctx', log) /\
    rbuf_status ctx' = rbuf_status ctx /\
    flat (bque ctx')
      = splice (flat (bque ctx)) (buff_size (cache ctx)) (slice buff 0 size) /\
    forall (buff2 : list byte) (size2 : Z),
      rbuf_append ctx' buff2 size2
        = rbuf_copy_from ctx' buff2 (buff_size (cache ctx)) size2.
Proof.
  intros Hwf Hs Hsrc Hcap H31. destruct Hwf. unfold rbuf_append.
  assert (Hheld : buff_size (cache ctx) + size
                  <= len (bque_nodes (bque ctx)) * block_size (conf ctx)) by nia.
  destruct (copy_from_implicit_resize ctx buff (buff_size (cache ctx)) size) as [Hno _].
  { unfold U32.range. lia. }
  rewrite (Hno Hcap).
  destruct (copy_from_blocks_flat ctx wf_blocks0 wf_block_size0 (buff_size (cache ctx))
              size ltac:(lia) Hs ltac:(lia) Hheld H31 buff Hsrc)
    as (ctx' & log & -> & Hflat & _ & _ & _ & Hc & _).
  do 3 eexists. split; [reflexivity |].
  split; [unfold rbuf_status; rewrite Hc; reflexivity |].
  split; [exact Hflat |]. intros buff2 size2. rewrite Hc. reflexivity.
Qed.

Lemma append_in_spare_capacity_witness :
  exists r ctx' log,
    rbuf_append ab_2 ["C"%byte] 1 = Some (r, ctx', log) /\
    rbuf_status ctx' = rbuf_status ab_2 /\
    flat (bque ctx')
      = splice (flat (bque ab_2)) (buff_size (cache ab_2)) (slice ["C"%byte] 0 1) /\
    forall (buff2 : list byte) (size2 : Z),
      rbuf_append ctx' buff2 size2
        = rbuf_copy_from ctx' buff2 (buff_size (cache ab_2)) size2.
Proof.
  apply (append_in_spare_capacity ab_2 ["C"%byte] 1);
    [apply ab_2_wf | lia | cbn; lia | cbn; lia | cbn; lia].
Defined.

(** a copy-in that ends past the capacity, within [size_max], with the
    blocks granted: the buffer is first resized to [offs + size], then the
    bytes are stored *)
Lemma copy_from_growing (ctx : rbuf_ctx) (buff : list byte) (offs size : Z) :
  wf ctx -> 0 <= offs -> 0 <= size -> size <= len buff ->
  buff_cap (cache ctx) < offs + size -> offs + size <= size_max (conf ctx) ->
  let bs := block_size (conf ctx) in
  let n := blocks_for bs (offs + size) in
  grants (bque ctx) (Z.to_nat (n - block_num (cache ctx))) ->
  (offs + size) / bs < 2 ^ 31 ->
  exists ctx' log added,
    rbuf_copy_from ctx buff offs size =
      Some (if (offs + size) / bs
               <? len (bque_nodes (bque ctx)) + (n - block_num (cache ctx))
            then RBUF_OK else RBUF_ERR, ctx', log) /\
    block_num (cache ctx') = n /\ buff_size (cache ctx') = offs + size /\
    conf ctx' = conf ctx /\
    flat (bque ctx') = splice (flat (bque ctx) ++ added) offs (slice buff 0 size) /\
    len added = bs * (n - block_num (cache ctx)) /\
    block_num (cache ctx) < n /\
    uniform bs (bque ctx') /\
    len (bque_nodes (bque ctx'))
      = len (bque_nodes (bque ctx)) + (n - block_num (cache ctx)).
Proof.
  intros Hwf Ho Hs Hsrc Hcap Hmax bs n Hg H31.
  pose proof Hwf as Hwf0. destruct Hwf. fold bs in wf_block_size0, wf_buff_cap0, wf_blocks0.
  assert (Hr : U32.range (offs + size)) by (unfold U32.range in *; lia).
  pose proof (blocks_for_bounds bs (offs + size) ltac:(lia) ltac:(lia)) as (Hn0 & Hlo & Hhi).
  fold n in Hn0, Hlo, Hhi.
  assert (Hlt : block_num (cache ctx) < n) by nia.
  destruct (resize_succeeds ctx (offs + size) Hwf0 Hr Hmax Hg)
    as (ctx1 & Hres & Hconf & Hbn & Hsz & Hheld & Hu).
  fold bs in Hu, Hheld, Hbn. fold n in Hheld, Hbn.
  destruct (resize_store ctx ctx1 (offs + size) Hwf0 Hr Hres) as (_ & _ & Hgrow & _).
  cbv zeta in Hgrow. fold bs in Hgrow. fold n in Hgrow.
  specialize (Hgrow ltac:(lia)).
  destruct (copy_from_implicit_resize ctx buff offs size Hr) as [_ Hyes].
  destruct (Hyes ltac:(lia)) as [Hok _]. rewrite (Hok ctx1 Hres).
  assert (Hl1 : len (bque_nodes (bque ctx1))
                = len (bque_nodes (bque ctx)) + (n - block_num (cache ctx))).
  { rewrite Hgrow, len_app, len_repeat. lia. }
  destruct (copy_from_blocks_flat ctx1) with (offs := offs) (size := size) (buff := buff)
    as (ctx' & log & Hrun & Hflat & Hu' & Hl' & _ & Hc & Hf);
    rewrite ?Hconf; fold bs; try assumption; try lia.
  { unfold U32.range in Hr. lia. }
  { nia. }
  rewrite Hconf in Hrun, Hu'. fold bs in Hrun, Hu'. rewrite Hl1 in Hrun.
  exists ctx', log,
    (concat (repeat (repeat x00 (Z.to_nat bs)) (Z.to_nat (n - block_num (cache ctx))))).
  split; [exact Hrun |]. rewrite Hc.
  repeat split; try assumption; try congruence.
  - rewrite Hflat. unfold flat. rewrite Hgrow, concat_app. reflexivity.
  - rewrite (len_concat_uniform bs).
    + rewrite len_repeat. lia.
    + apply Forall_forall. intros b Hb. apply repeat_spec in Hb. subst b.
      rewrite len_repeat. lia.
Qed.

(** a copy-in that ends past the capacity grows the buffer to exactly
    [offs + size]: the status afterwards is that size with the block count it
    needs, the old contents are kept in front of the new blocks, and the
    bytes at [offs .. offs + size) are the source bytes.  The call reports
    [RBUF_ERR] all the same when [offs + size] is where the last held block
    ends. *)
Theorem copy_from_grows (ctx : rbuf_ctx) (buff : list byte) (offs size : Z) :
  wf ctx -> 0 <= offs -> 0 <= size -> size <= len buff ->
  buff_cap (cache ctx) < offs + size -> offs + size <= size_max (conf ctx) ->
  grants (bque ctx)
    (Z.to_nat (blocks_for (block_size (conf ctx)) (offs + size) - block_num (cache ctx))) ->
  (offs + size) / block_size (conf ctx) < 2 ^ 31 ->
  exists ctx' log added,
    rbuf_copy_from ctx buff offs size =
      Some (if (offs + size) / block_size (conf ctx)
               <? len (bque_nodes (bque ctx))
                  + (blocks_for (block_size (conf ctx)) (offs + size)
                     - block_num (cache ctx))
            then RBUF_OK else RBUF_ERR, ctx', log) /\
    rbuf_status ctx' =
      (RBUF_OK, {| stat_block_num := blocks_for (block_size (conf ctx)) (offs + size);
                   stat_buff_size := offs + size |}) /\
    flat (bque ctx') = splice (flat (bque ctx) ++ added) offs (slice buff 0 size) /\
    len added = block_size (conf ctx)
                * (blocks_for (block_size (conf ctx)) (offs + size)
                   - block_num (cache ctx)).
Proof.
  intros Hwf Ho Hs Hsrc Hcap Hmax Hg H31.
  destruct (copy_from_growing ctx buff offs size Hwf Ho Hs Hsrc Hcap Hmax Hg H31)
    as (ctx' & log & added & Hrun & Hbn & Hsz & _ & Hflat & Hadd & _).
  exists ctx', log, added. split; [exact Hrun |].
  split; [unfold rbuf_status; rewrite Hbn, Hsz; reflexivity | auto].
Qed.

Lemma copy_from_grows_witness :
  exists ctx' log added,
    rbuf_copy_from ab_2 ["C"; "D"; "E"; "F"]%byte 2 4 =
      Some (if (2 + 4) / block_size (conf ab_2)
               <? len (bque_nodes (bque ab_2))
                  + (blocks_for (block_size (conf ab_2)) (2 + 4) - block_num (cache ab_2))
            then RBUF_OK else RBUF_ERR, ctx', log) /\
    rbuf_status ctx' =
      (RBUF_OK, {| stat_block_num := blocks_for (block_size (conf ab_2)) (2 + 4);
                   stat_buff_size := 2 + 4 |}) /\
    flat (bque ctx')
      = splice (flat (bque ab_2) ++ added) 2 (slice ["C"; "D"; "E"; "F"]%byte 0 4) /\
    len added = block_size (conf ab_2)
                * (blocks_for (block_size (conf ab_2)) (2 + 4) - block_num (cache ab_2)).
Proof.
  apply (copy_from_grows ab_2 ["C"; "D"; "E"; "F"]%byte 2 4);
    [apply ab_2_wf | lia | lia | cbn; lia | cbn; lia | cbn; lia
    | cbn; constructor | cbn; lia].
Defined.

(** an append that needs new blocks moves the logical end by its length,
    and the bytes appended are read back from the old end, provided the new
    end is not a multiple of the block size. *)
Theorem append_then_read (ctx : rbuf_ctx) (buff dst : list byte) (size : Z) :
  wf ctx -> 0 <= size -> len buff = size -> len dst = size ->
  let old := buff_size (cache ctx) in
  let bs := block_size (conf ctx) in
  buff_cap (cache ctx) < old + size -> old + size <= size_max (conf ctx) ->
  grants (bque ctx) (Z.to_nat (blocks_for bs (old + size) - block_num (cache ctx))) ->
  (old + size) / bs < 2 ^ 31 ->
  (old + size) mod bs <> 0 ->
  exists ctx' log1 log2,
    rbuf_append ctx buff size = Some (RBUF_OK, ctx', log1) /\
    rbuf_status ctx' =
      (RBUF_OK, {| stat_block_num := blocks_for bs (old + size);
                   stat_buff_size := old + size |}) /\
    rbuf_copy_to ctx' dst old size = Some (RBUF_OK, ctx', buff, log2).
Proof.
  intros Hwf Hs Hbuff Hdst old bs Hcap Hmax Hg H31 Hmod.
  pose proof Hwf as Hwf0. destruct Hwf. fold old in wf_buff_size0. fold bs in wf_block_size0.
  destruct (copy_from_growing ctx buff old size Hwf0 ltac:(lia) Hs ltac:(lia) Hcap Hmax
              Hg H31)
    as (ctx' & log1 & added & Hrun & Hbn & Hsz & Hconf & Hflat & Hadd & Hlt & Hu & Hl).
  fold bs in Hrun, Hbn, Hflat, Hadd, Hlt, Hu, Hl.
  set (n := blocks_for bs (old + size)) in *.
  assert (Hn : n = (old + size) / bs + 1).
  { unfold n, blocks_for. destruct (Z.eqb_spec ((old + size) mod bs) 0); [contradiction | reflexivity]. }
  assert (Hverdict : ((old + size) / bs
                      <? len (bque_nodes (bque ctx)) + (n - block_num (cache ctx))) = true).
  { apply Z.ltb_lt. lia. }
  rewrite Hverdict in Hrun.
  unfold rbuf_append. fold old. rewrite Hrun.
  destruct (copy_to_flat ctx') with (offs := old) (size := size) (dst := dst)
    as (log2 & Hread); rewrite ?Hconf, ?Hsz, ?Hl; fold bs; try assumption; try lia.
  { unfold U32.range in *. lia. }
  { pose proof (blocks_for_bounds bs (old + size) ltac:(lia) ltac:(lia)) as (_ & Hlo & _).
    fold n in Hlo. nia. }
  rewrite Hconf, Hl in Hread. fold bs in Hread. rewrite Hverdict in Hread.
  exists ctx', log1, log2. split; [reflexivity |].
  split; [unfold rbuf_status; rewrite Hbn, Hsz; reflexivity |].
  rewrite Hread. do 3 f_equal.
  assert (Hall : slice buff 0 size = buff) by (rewrite <- Hbuff; apply slice_all).
  rewrite Hflat, Hall.
  replace (slice (splice (flat (bque ctx) ++ added) old buff) old size)
    with (slice (splice (flat (bque ctx) ++ added) old buff) old (len buff))
    by (rewrite Hbuff; reflexivity).
  rewrite slice_splice.
  - apply splice_all. lia.
  - lia.
  - rewrite len_app, (len_flat bs (bque ctx) wf_blocks0), Hadd.
    pose proof (blocks_for_bounds bs (old + size) ltac:(lia) ltac:(lia)) as (_ & Hlo & _).
    fold n in Hlo. nia.
Qed.

Lemma append_then_read_witness :
  exists ctx' log1 log2,
    rbuf_append ab_2 ["C"; "D"; "E"; "F"]%byte 4 = Some (RBUF_OK, ctx', log1) /\
    rbuf_status ctx' =
      (RBUF_OK,
       {| stat_block_num := blocks_for (block_size (conf ab_2)) (buff_size (cache ab_2) + 4);
          stat_buff_size := buff_size (cache ab_2) + 4 |}) /\
    rbuf_copy_to ctx' (repeat x00 4) (buff_size (cache ab_2)) 4
      = Some (RBUF_OK, ctx', ["C"; "D"; "E"; "F"]%byte, log2).
Proof.
  apply (append_then_read ab_2 ["C"; "D"; "E"; "F"]%byte (repeat x00 4) 4);
    [apply ab_2_wf | lia | reflexivity | reflexivity | cbn; lia | cbn; lia
    | cbn; constructor | cbn; lia | cbn; lia].
Defined.

(** ** Memory safety of the copy routines *)

Lemma resize_keeps_uniform (ctx ctx' : rbuf_ctx) (size : Z) (r : rbuf_res) :
  uniform (block_size (conf ctx)) (bque ctx) -> 0 < block_size (conf ctx) ->
  rbuf_resize ctx size = Some (r, ctx') ->
  uniform (block_size (conf ctx)) (bque ctx') /\ conf ctx' = conf ctx.
Proof.
  intros Hu Hbs H. unfold rbuf_resize in H.
  set (bs := block_size (conf ctx)) in *.
  assert (Hgrown : forall q k,
            bque_nodes q = bque_nodes (bque ctx) ++ repeat (repeat x00 (Z.to_nat bs)) k ->
            uniform bs q).
  { intros q k Hq. unfold uniform. rewrite Hq. apply Forall_app. split; [exact Hu |].
    apply Forall_forall. intros b Hb. apply repeat_spec in Hb. subst b.
    rewrite len_repeat. lia. }
  assert (Hcut : forall q k,
            bque_nodes q = firstn k (bque_nodes (bque ctx)) -> uniform bs q).
  { intros q k Hq. unfold uniform. rewrite Hq. apply Forall_firstn. exact Hu. }
  destruct (size >? size_max (conf ctx)); [inversion H; subst; auto |].
  destruct (bs =? 0); [discriminate |]. cbv zeta in H.
  destruct (_ >? block_num (cache ctx)).
  - destruct (resize_grow_loop _ _ _) as [rq q] eqn:Hloop.
    apply grow_loop_nodes in Hloop. destruct Hloop as (k & Hk & _).
    destruct rq; inversion H; subst; fields; eauto.
  - destruct (_ <? block_num (cache ctx)).
    + destruct (resize_shrink_loop _ _) as [rq q] eqn:Hloop.
      apply shrink_loop_nodes in Hloop. destruct Hloop as (k & _ & Hk & _).
      destruct rq; inversion H; subst; fields; eauto.
    + inversion H; subst. auto.
Qed.

(** [rbuf_copy_from] stays within the memory it is given: on a well-formed
    buffer, with a source of at least [size] bytes and [offs + size] within 32
    bits, every [memcpy] of the call lies inside a block and inside the
    source, whatever the allocator does. *)
Theorem copy_from_memory_safe (ctx : rbuf_ctx) (buff : list byte) (offs size : Z) :
  wf ctx -> 0 <= offs -> 0 <= size -> offs + size < U32.modulus ->
  size <= len buff ->
  exists r ctx' log, rbuf_copy_from ctx buff offs size = Some (r, ctx', log).
Proof.
  intros Hwf Ho Hs Hend Hsrc. destruct Hwf.
  assert (Hr : U32.range (offs + size)) by (unfold U32.range; lia).
  destruct (copy_from_implicit_resize ctx buff offs size Hr) as [Hno Hyes].
  destruct (Z.le_gt_cases (offs + size) (buff_cap (cache ctx))) as [Hle | Hgt].
  - rewrite (Hno Hle).
    destruct (copy_from_blocks_defined ctx buff offs size) as (r & ctx' & log & Hrun & _);
      try assumption.
    eauto.
  - destruct (Hyes ltac:(lia)) as [Hok Hfail].
    destruct (resize_defined ctx (offs + size)) as (r1 & ctx1 & Hres & Hconf); [lia |].
    destruct (resize_keeps_uniform ctx ctx1 _ r1 wf_blocks0 ltac:(lia) Hres) as [Hu1 _].
    destruct r1; try (rewrite (Hfail _ ctx1 Hres) by discriminate; eauto).
    rewrite (Hok ctx1 Hres).
    destruct (copy_from_blocks_defined ctx1 buff offs size) as (r & ctx' & log & Hrun & _);
      rewrite ?Hconf; try assumption.
    eauto.
Qed.

Lemma copy_from_memory_safe_witness :
  exists r ctx' log,
    rbuf_copy_from abcdef_6 ["X"; "Y"; "Z"]%byte 7 3 = Some (r, ctx', log).
Proof.
  apply (copy_from_memory_safe abcdef_6 ["X"; "Y"; "Z"]%byte 7 3);
    [apply abcdef_6_wf | lia | lia | rewrite modulus_eq; lia | cbn; lia].
Defined.

Lemma copy_to_loop_defined (bs : Z) (q : bque_ctx) (n : nat) :
  forall (i : Z) (dst : list byte) (bo R : Z),
  uniform bs q -> 0 < bs < U32.modulus ->
  0 <= R -> 0 <= bo -> bo + R <= len dst -> bo + R < U32.modulus ->
  exists r dst' log,
    copy_to_loop n i q bs dst bo R = Some (r, dst', log) /\ len dst' = len dst.
Proof.
  induction n as [| n IH]; intros i dst bo R Hu Hbs HR Hbo Hdst Hmod;
    cbn [copy_to_loop]; [eauto |].
  destruct (bque_item q (U32.to_s32 i)) as [b |] eqn:Hitem; [| eauto].
  apply item_inv in Hitem. destruct Hitem as [Hx Hptr].
  set (curt := if R >? bs then bs else R).
  assert (Hc : 0 <= curt <= bs /\ curt <= R).
  { unfold curt. rewrite Z.gtb_ltb. destruct (Z.ltb_spec bs R); lia. }
  rewrite (block_load_flat bs ltac:(lia) q b (U32.to_s32 i) 0 dst bo curt Hu Hx Hptr)
    by lia.
  rewrite add_small by (unfold U32.range; lia).
  rewrite sub_small by (unfold U32.range; lia).
  assert (Hlen : len (splice dst bo (slice (flat q) (U32.to_s32 i * bs + 0) curt))
                 = len dst).
  { apply len_splice; [lia |]. rewrite len_slice; try lia.
    rewrite (len_flat bs q Hu). nia. }
  destruct (IH (i + 1) (splice dst bo (slice (flat q) (U32.to_s32 i * bs + 0) curt))
              (bo + curt) (R - curt)) as (r & dst' & log & -> & Hl);
    try assumption; try lia.
  do 3 eexists. split; [reflexivity | lia].
Qed.

(** [rbuf_copy_to] stays within the memory it is given: on a well-formed
    buffer, with a destination of at least [size] bytes and [offs + size]
    within 32 bits, every [memcpy] of the call lies inside a block and inside
    the destination, whose length is kept; the context is returned as it
    was. *)
Theorem copy_to_memory_safe (ctx : rbuf_ctx) (dst : list byte) (offs size : Z) :
  wf ctx -> 0 <= offs -> 0 <= size -> offs + size < U32.modulus ->
  size <= len dst ->
  exists r dst' log,
    rbuf_copy_to ctx dst offs size = Some (r, ctx, dst', log) /\ len dst' = len dst.
Proof.
  intros Hwf Ho Hs Hend Hdst. destruct Hwf. unfold rbuf_copy_to.
  set (bs := block_size (conf ctx)) in *.
  destruct (offs >? buff_size (cache ctx)); [eauto 6 |].
  rewrite add_small by (unfold U32.range; lia).
  destruct (offs + size >? buff_size (cache ctx)); [eauto 6 |].
  destruct (Z.eqb_spec bs 0); [lia |]. cbv zeta.
  pose proof (Z.div_mod offs bs ltac:(lia)) as Hso.
  pose proof (Z.mod_pos_bound offs bs ltac:(lia)) as Hsr.
  pose proof (Z.div_mod (offs + size) bs ltac:(lia)) as Heo.
  pose proof (Z.mod_pos_bound (offs + size) bs ltac:(lia)) as Her.
  assert (Hse : offs / bs <= (offs + size) / bs) by (apply Z.div_le_mono; lia).
  pose proof (len_flat bs (bque ctx) wf_blocks0) as Hlf.
  destruct (Z.eqb_spec (offs / bs) ((offs + size) / bs)) as [Eq | Ne].
  - destruct (bque_item (bque ctx) _) as [b |] eqn:Hitem; [| eauto 6].
    apply item_inv in Hitem. destruct Hitem as [Hx Hptr].
    rewrite <- Eq in Heo.
    rewrite (block_load_flat bs ltac:(lia) (bque ctx) b _ (offs mod bs) dst 0 size
               wf_blocks0 Hx Hptr) by lia.
    do 3 eexists. split; [reflexivity |].
    apply len_splice; [lia |]. rewrite len_slice; try lia. nia.
  - destruct (bque_item (bque ctx) _) as [b |] eqn:Hitem; [| eauto 6].
    apply item_inv in Hitem. destruct Hitem as [Hx Hptr].
    rewrite !sub_small by (rewrite modulus_eq in *; nia).
    assert (Hcurt : bs - offs mod bs <= size) by nia.
    rewrite (block_load_flat bs ltac:(lia) (bque ctx) b _ (offs mod bs) dst 0
               (bs - offs mod bs) wf_blocks0 Hx Hptr) by lia.
    match goal with |- context [splice dst 0 ?d] =>
      assert (Hlen : len (splice dst 0 d) = len dst)
    end.
    { apply len_splice; [lia |]. rewrite len_slice; try lia. nia. }
    match goal with |- context [copy_to_loop ?n ?i _ _ ?d ?bo ?R] =>
      destruct (copy_to_loop_defined bs (bque ctx) n i d bo R)
        as (r & dst' & log & -> & Hl); try assumption; try lia
    end.
    do 3 eexists. split; [reflexivity | lia].
Qed.

Lemma copy_to_memory_safe_witness :
  exists r dst' log,
    rbuf_copy_to abcdef_6 (repeat x00 5) 1 5 = Some (r, abcdef_6, dst', log) /\
    len dst' = len (repeat x00 5).
Proof.
  apply (copy_to_memory_safe abcdef_6 (repeat x00 5) 1 5);
    [apply abcdef_6_wf | lia | lia | rewrite modulus_eq; lia | cbn; lia].
Defined.

(** ** Ranges whose end does not fit 32 bits *)








(** ** Data across a resize *)

Lemma slice_app_l {A} (l t : list A) (p n : Z) :
  0 <= p -> 0 <= n -> p + n <= len l -> slice (l ++ t) p n = slice l p n.
Proof.
  intros Hp Hn Hl.
  destruct (cut l p n Hp Hn Hl) as (pre & mid & post & -> & E1 & E2).
  rewrite (slice_app pre mid post p n E1 E2).
  rewrite <- !app_assoc. apply slice_app; assumption.
Qed.

(** bytes stored by a copy-in are still read back after a successful resize,
    growing or shrinking, to any size that keeps their range: the resize
    moves no byte of the blocks that stay. *)
Theorem data_survives_resize (ctx ctx1 ctx2 : rbuf_ctx) (S dst : list byte)
    (offs size N : Z) (r1 : rbuf_res) (log1 : list subcopy) :
  wf ctx -> conf_fits (conf ctx) ->
  0 <= offs -> 0 <= size -> len S = size -> len dst = size ->
  offs + size <= buff_size (cache ctx) ->
  U32.range N -> offs + size <= N ->
  rbuf_copy_from ctx S offs size = Some (r1, ctx1, log1) ->
  rbuf_resize ctx1 N = Some (RBUF_OK, ctx2) ->
  (offs + size) / block_size (conf ctx) < 2 ^ 31 ->
  (offs + size) / block_size (conf ctx) < len (bque_nodes (bque ctx2)) ->
  exists log2, rbuf_copy_to ctx2 dst offs size = Some (RBUF_OK, ctx2, S, log2).
Proof.
  intros Hwf Hfit Ho Hs HS Hdst Hin HN HoN Hcp Hres H31 Hheld2.
  pose proof Hwf as Hwf0. destruct Hwf.
  set (bs := block_size (conf ctx)) in *.
  assert (Hheld : offs + size <= len (bque_nodes (bque ctx)) * bs) by nia.
  (* the copy-in *)
  destruct (copy_from_implicit_resize ctx S offs size) as [Hno _].
  { unfold U32.range. lia. }
  rewrite (Hno ltac:(lia)) in Hcp.
  destruct (copy_from_blocks_flat ctx wf_blocks0 wf_block_size0 offs size Ho Hs
              ltac:(lia) Hheld H31 S ltac:(lia))
    as (c & lg & Hrun & Hflat & Hu1 & Hl1 & _ & Hc1 & Hf1).
  rewrite Hcp in Hrun. inversion Hrun; subst c lg; clear Hrun.
  assert (Hall : slice S 0 size = S) by (rewrite <- HS; apply slice_all).
  rewrite Hall in Hflat.
  assert (Hwf1 : wf ctx1) by (apply (wf_blocks_only ctx); assumption).
  (* the resize *)
  assert (Hfit1 : conf_fits (conf ctx1)) by (rewrite Hf1; exact Hfit).
  pose proof (resize_wf ctx1 ctx2 N RBUF_OK Hwf1 Hfit1 HN Hres) as Hwf2.
  destruct (resize_store ctx1 ctx2 N Hwf1 HN Hres) as (Hn2 & Hf2 & Hgrow & Hshrink).
  cbv zeta in *. rewrite Hf1 in Hn2, Hgrow, Hshrink, Hf2. fold bs in Hn2, Hgrow, Hshrink.
  apply resize_success_cache in Hres. cbv zeta in Hres.
  destruct Hres as (_ & _ & _ & Hsz2 & _).
  pose proof (len_flat bs (bque ctx) wf_blocks0) as Hlf.
  pose proof (len_flat bs (bque ctx1) Hu1) as Hlf1.
  assert (Hu2 : uniform bs (bque ctx2)).
  { destruct Hwf2. rewrite Hf2 in wf_blocks1. exact wf_blocks1. }
  pose proof (len_flat bs (bque ctx2) Hu2) as Hlf2.
  pose proof (blocks_for_bounds bs N ltac:(lia) ltac:(lia)) as (Hb0 & Hblo & _).
  assert (Hheld2' : offs + size <= len (bque_nodes (bque ctx2)) * bs).
  { destruct Hwf2. rewrite Hn2 in wf_held1. nia. }
  assert (Hsame : slice (flat (bque ctx2)) offs size = slice (flat (bque ctx1)) offs size).
  { destruct (Z.le_ge_cases (block_num (cache ctx1)) (blocks_for bs N)) as [Hle | Hge].
    - unfold flat at 1. rewrite (Hgrow Hle), concat_app.
      apply slice_app_l; lia.
    - destruct (Hshrink Hge) as [Hcut _].
      assert (Hsplit : flat (bque ctx1) = flat (bque ctx2)
                         ++ concat (skipn (length (bque_nodes (bque ctx1))
                                           - Z.to_nat (block_num (cache ctx1) - blocks_for bs N))
                                          (bque_nodes (bque ctx1)))).
      { unfold flat. rewrite Hcut, <- concat_app, firstn_skipn. reflexivity. }
      rewrite Hsplit. symmetry. apply slice_app_l; lia. }
  (* the copy-out *)
  destruct (copy_to_flat ctx2) with (offs := offs) (size := size) (dst := dst)
    as (log2 & Hread); rewrite ?Hf2, ?Hsz2; fold bs; try assumption;
    try (unfold U32.range in HN; lia).
  rewrite Hf2 in Hread. fold bs in Hread.
  destruct (Z.ltb_spec ((offs + size) / bs) (len (bque_nodes (bque ctx2)))); [| lia].
  exists log2. rewrite Hread. do 3 f_equal.
  rewrite Hsame, Hflat.
  replace (slice (splice (flat (bque ctx)) offs S) offs size)
    with (slice (splice (flat (bque ctx)) offs S) offs (len S))
    by (rewrite HS; reflexivity).
  rewrite slice_splice by lia. apply splice_all. lia.
Qed.

Lemma data_survives_resize_witness :
  exists log2,
    rbuf_copy_to axy_3 [x00; x00] 1 2 = Some (RBUF_OK, axy_3, ["X"; "Y"]%byte, log2).
Proof.
  eapply (data_survives_resize abcdef_6 axydef_6 axy_3 ["X"; "Y"]%byte [x00; x00]
            1 2 3 RBUF_OK);
    [apply abcdef_6_wf | apply conf_4_16_fits | lia | lia | reflexivity | reflexivity
    | cbn; lia | u32_range | lia | reflexivity | reflexivity | cbn; lia | cbn; lia].
Defined.
